(** * Sudoku-Solver: a shallow embedding of [src/sudoku/solver.py]

    The solver is a backtracking depth-first search with forward checking
    and the minimum-remaining-values heuristic.  The Python objects it
    works on are modelled as follows.

    - a cell (a "variable" of the source) is a pair of indices produced by
      [range], hence a pair of naturals;
    - the input array [sudoku] is a list of rows of integers;
    - [sol_array] is an object array: every entry is [None] or an integer,
      hence a list of rows of [option Z];
    - [order_values] is a dict from cells to Python sets of integers, hence
      a [gmap] from cells to [gset Z];
    - [members] is a dict from cells to Python lists of cells;
    - indexing and dict lookup can raise, and the recursion of the search
      is bounded by fuel: computations live in the [outcome] monad. *)

From stdpp Require Import base option list sorting gmap sets.
From Stdlib Require Import ZArith Lia.

Local Open Scope Z_scope.

(** ** Outcomes of a Python computation *)

Inductive exn : Type := KeyError | IndexError | ValueError.

Inductive outcome (A : Type) : Type :=
  | Ok (a : A)
  | Raise (e : exn)
  | OutOfFuel.
Arguments Ok {A} a.
Arguments Raise {A} e.
Arguments OutOfFuel {A}.

#[global] Instance outcome_ret : MRet outcome := fun A a => Ok a.
#[global] Instance outcome_bind : MBind outcome := fun A B k m =>
  match m with
  | Ok a => k a
  | Raise e => Raise e
  | OutOfFuel => OutOfFuel
  end.

(** [o or_raise e]: the value of a lookup, or the exception [e]. *)
Definition or_raise {A : Type} (e : exn) (o : option A) : outcome A :=
  match o with
  | Some a => Ok a
  | None => Raise e
  end.

(** ** Cells and arrays *)

Definition cell : Type := nat * nat.

(** [a[r][c]] on a two-dimensional array. *)
Definition grid_lookup {A : Type} (a : list (list A)) (var : cell) : option A :=
  row ← a !! var.1; row !! var.2.

(** [a[r][c] = x]; [None] stands for the IndexError of an index out of
    range. *)
Definition grid_store {A : Type} (a : list (list A)) (var : cell) (x : A)
  : option (list (list A)) :=
  row ← a !! var.1;
  if decide (var.2 < length row)%nat
  then Some (<[var.1 := <[var.2 := x]> row]> a)
  else None.

(** [np.full((9, 9), x)] *)
Definition np_full (A : Type) (x : A) : list (list A) :=
  replicate 9 (replicate 9 x).

(** ** Iteration over a Python set

    The order in which a [for] loop visits the elements of a set is not
    fixed by the language: it depends on the hash table behind the set
    object and on its history.  The order is therefore a parameter of the
    model: the [k]-th [for] loop over a set that the run executes visits
    the elements of the set [s] in the order [set_iter k s], each element
    once. *)

Record set_order : Type := SetOrder {
  set_iter : nat -> gset Z -> list Z;
  set_iter_perm : forall k s, set_iter k s ≡ₚ elements s
}.

(** Two instances: ascending and descending numeric order. *)
Program Definition ascending : set_order :=
  {| set_iter := fun _ s => merge_sort Z.le (elements s) |}.
Next Obligation. intros. apply merge_sort_Permutation. Qed.

Program Definition descending : set_order :=
  {| set_iter := fun _ s => reverse (merge_sort Z.le (elements s)) |}.
Next Obligation.
  intros. rewrite reverse_Permutation. apply merge_sort_Permutation.
Qed.

(** ** The objects of one run *)

(** [sudoku] is the caller's array, [sol_array] and [order_values] are
    created by [sudoku_solver].  Three more fields record the history of
    the run and are not read by the program: [loops] counts the [for]
    loops over a set started so far, [trace] lists the successive contents
    of [sol_array], and [tried] lists the values taken by the loop variable
    [value], each with the number of its loop (both most recent first). *)
Record store : Type := Store {
  sudoku : list (list Z);
  sol_array : list (list (option Z));
  order_values : gmap cell (gset Z);
  loops : nat;
  trace : list (list (list (option Z)));
  tried : list (nat * Z)
}.

Definition set_sol_array (a : list (list (option Z))) (st : store) : store :=
  {| sudoku := sudoku st; sol_array := a; order_values := order_values st;
     loops := loops st; trace := a :: trace st; tried := tried st |}.

Definition set_order_values (ov : gmap cell (gset Z)) (st : store) : store :=
  {| sudoku := sudoku st; sol_array := sol_array st; order_values := ov;
     loops := loops st; trace := sol_array st :: trace st; tried := tried st |}.

Definition next_loop (st : store) : store :=
  {| sudoku := sudoku st; sol_array := sol_array st;
     order_values := order_values st;
     loops := S (loops st); trace := trace st; tried := tried st |}.

Definition next_value (loop : nat) (value : Z) (st : store) : store :=
  {| sudoku := sudoku st; sol_array := sol_array st;
     order_values := order_values st;
     loops := loops st; trace := trace st; tried := (loop, value) :: tried st |}.

(** The arrays a returned reference can designate. *)
Inductive array_ref : Type :=
  | ref_sudoku
  | ref_sol_array.

(** ** Domain setup *)

(** [[(i, j) for i in range(n) for j in range(n)]] *)
Definition all_variables (n : nat) : list cell :=
  i ← seq 0 n; j ← seq 0 n; [(i, j)].

Fixpoint populate_order_values (sudoku : list (list Z)) (variables : list cell)
    (order_values : gmap cell (gset Z)) : outcome (gmap cell (gset Z)) :=
  match variables with
  | [] => Ok order_values
  | var :: variables' =>
      x ← or_raise IndexError (grid_lookup sudoku var);
      if decide (x = 0)
      then populate_order_values sudoku variables'
             (<[var := list_to_set (seqZ 1 9)]> order_values)
      else populate_order_values sudoku variables'
             (<[var := {[ x ]}]> order_values)
  end.

(** The list built for one cell by the three loops of [populate_members],
    with [n = len(sudoku[0])]. *)
Definition members_of (n : nat) (var : cell) : list cell :=
  let '(row, col) := var in
  let start_row := (3 * (row / 3))%nat in
  let start_col := (3 * (col / 3))%nat in
  ((fun j => (row, j)) <$> filter (fun j => j ≠ col) (seq 0 n)) ++
  ((fun i => (i, col)) <$> filter (fun i => i ≠ row) (seq 0 n)) ++
  filter (fun c => var ≠ c)
    (i ← seq start_row 3; j ← seq start_col 3; [(i, j)]).

Fixpoint populate_members (sudoku : list (list Z)) (variables : list cell)
    (members : gmap cell (list cell)) : outcome (gmap cell (list cell)) :=
  match variables with
  | [] => Ok members
  | var :: variables' =>
      row0 ← or_raise IndexError (sudoku !! 0%nat);
      populate_members sudoku variables'
        (<[var := members_of (length row0) var]> members)
  end.

(** ** Variable selection *)

Fixpoint empty_variables (sol_array : list (list (option Z)))
    (variables : list cell) : outcome (list cell) :=
  match variables with
  | [] => Ok []
  | var :: variables' =>
      x ← or_raise IndexError (grid_lookup sol_array var);
      rest ← empty_variables sol_array variables';
      Ok (if decide (x = None) then var :: rest else rest)
  end.

Fixpoint value_sizes (order_values : gmap cell (gset Z))
    (vars : list cell) : outcome (list nat) :=
  match vars with
  | [] => Ok []
  | var :: vars' =>
      s ← or_raise KeyError (order_values !! var);
      rest ← value_sizes order_values vars';
      Ok (size s :: rest)
  end.

(** [np.argmin]: the index of the first occurrence of the minimum; the
    index [best_i] holds the least value [best] seen before position [i]. *)
Fixpoint argmin_from (best_i best i : nat) (l : list nat) : nat :=
  match l with
  | [] => best_i
  | x :: l' =>
      if (x <? best)%nat then argmin_from i x (S i) l'
      else argmin_from best_i best (S i) l'
  end.

Definition argmin (l : list nat) : outcome nat :=
  match l with
  | [] => Raise ValueError
  | x :: l' => Ok (argmin_from 0 x 1 l')
  end.

Definition get_empty_var (sol_array : list (list (option Z)))
    (order_values : gmap cell (gset Z)) (variables : list cell) : outcome cell :=
  evs ← empty_variables sol_array variables;
  sizes ← value_sizes order_values evs;
  i ← argmin sizes;
  or_raise IndexError (evs !! i).

(** ** Constraint checking *)

Fixpoint is_valid_loop (value : Z) (ms : list cell)
    (sol_array : list (list (option Z))) : outcome bool :=
  match ms with
  | [] => Ok true
  | member_var :: ms' =>
      x ← or_raise IndexError (grid_lookup sol_array member_var);
      if decide (x = Some value) then Ok false
      else is_valid_loop value ms' sol_array
  end.

Definition is_valid (var : cell) (value : Z) (members : gmap cell (list cell))
    (sol_array : list (list (option Z))) : outcome bool :=
  ms ← or_raise KeyError (members !! var);
  is_valid_loop value ms sol_array.

(** The restoring loop of [forward_check]:
    [for changed_var in changes: order_values[changed_var].add(value)]. *)
Fixpoint restore_changes (value : Z) (changes : list cell)
    (order_values : gmap cell (gset Z)) : outcome (gmap cell (gset Z)) :=
  match changes with
  | [] => Ok order_values
  | changed_var :: changes' =>
      s ← or_raise KeyError (order_values !! changed_var);
      restore_changes value changes' (<[changed_var := s ∪ {[ value ]}]> order_values)
  end.

Fixpoint forward_check_loop (value : Z) (ms : list cell)
    (order_values : gmap cell (gset Z)) (changes : list cell)
  : outcome (gmap cell (gset Z) * bool) :=
  match ms with
  | [] => Ok (order_values, true)
  | member_var :: ms' =>
      s ← or_raise KeyError (order_values !! member_var);
      if decide (value ∈@{gset Z} s) then
        let order_values1 := <[member_var := s ∖ {[ value ]}]> order_values in
        let changes1 := changes ++ [member_var] in
        s1 ← or_raise KeyError (order_values1 !! member_var);
        if decide (size s1 = 0%nat) then
          order_values2 ← restore_changes value changes1 order_values1;
          Ok (order_values2, false)
        else forward_check_loop value ms' order_values1 changes1
      else forward_check_loop value ms' order_values changes
  end.

Definition forward_check (var : cell) (value : Z)
    (members : gmap cell (list cell)) (order_values : gmap cell (gset Z))
  : outcome (gmap cell (gset Z) * bool) :=
  ms ← or_raise KeyError (members !! var);
  forward_check_loop value ms order_values [].

(** ** Search engine

    [depth_first_search] mutates [sol_array] and the sets of
    [order_values] in place and hands the same objects to its recursive
    calls: the store is threaded through the calls.  The sets of
    [order_values] are distinct objects (each key gets a set of its own in
    [populate_order_values], and a copy of its own in every snapshot), so
    discarding a value from the set of one key changes no other key.  The
    snapshot [old_order_values] is made of copies that nothing writes to
    before [update] puts them back, hence it is the value of
    [order_values] at the time of the snapshot.

    The test [if empty_var is None] of the source is dead code:
    [get_empty_var] returns a cell or raises. *)

Section search.
Context (ord : set_order).
Context (members : gmap cell (list cell)) (variables : list cell).

(** The [for value in ...] loop of the call whose loop has number
    [loop], for the values that remain; [rec] is the recursive call.  The
    result is the store on return and the returned reference ([None] for
    Python's [None]). *)
Fixpoint search_values (rec : store -> outcome (store * option array_ref))
    (loop : nat) (empty_var : cell) (values : list Z) (st : store)
  : outcome (store * option array_ref) :=
  match values with
  | [] => Ok (st, None)
  | value :: values' =>
      let st0 := next_value loop value st in
      valid ← is_valid empty_var value members (sol_array st0);
      if valid : bool then
        a1 ← or_raise IndexError (grid_store (sol_array st0) empty_var (Some value));
        let st1 := set_sol_array a1 st0 in
        let old_order_values := order_values st1 in
        '(ov2, ok) ← forward_check empty_var value members (order_values st1);
        let st2 := set_order_values ov2 st1 in
        '(st3, solution) ← (if ok : bool then rec st2 else Ok (st2, None));
        match solution with
        | Some r => Ok (st3, Some r)
        | None =>
            let st4 := set_order_values (old_order_values ∪ order_values st3) st3 in
            a5 ← or_raise IndexError (grid_store (sol_array st4) empty_var None);
            search_values rec loop empty_var values' (set_sol_array a5 st4)
        end
      else search_values rec loop empty_var values' st0
  end.

Fixpoint depth_first_search (fuel : nat) (st : store)
  : outcome (store * option array_ref) :=
  match fuel with
  | O => OutOfFuel
  | S fuel' =>
      if decide (None ∈ mjoin (sol_array st)) then
        empty_var ← get_empty_var (sol_array st) (order_values st) variables;
        s ← or_raise KeyError (order_values st !! empty_var);
        search_values (depth_first_search fuel') (loops st) empty_var
          (set_iter ord (loops st) s) (next_loop st)
      else Ok (st, Some ref_sol_array)
  end.
End search.

(** ** Entry point

    The dict [assigned_vars] of the source is never used. *)

(** What [sudoku_solver] hands back: one of the arrays of the store, or an
    array built for the occasion. *)
Inductive returned : Type :=
  | ret_ref (r : array_ref)
  | ret_new (a : list (list (option Z))).

Definition sudoku_solver (ord : set_order) (fuel : nat) (sudoku : list (list Z))
  : outcome (store * returned) :=
  let order_values : gmap cell (gset Z) := ∅ in
  let members : gmap cell (list cell) := ∅ in
  let sol_array := np_full (option Z) None in
  let variables := all_variables (length sudoku) in
  order_values ← populate_order_values sudoku variables order_values;
  members ← populate_members sudoku variables members;
  '(st, solution) ← depth_first_search ord members variables fuel
      {| sudoku := sudoku; sol_array := sol_array; order_values := order_values;
         loops := 0; trace := [sol_array]; tried := [] |};
  match solution with
  | None => Ok (st, ret_new (np_full (option Z) (Some (-1))))
  | Some r => Ok (st, ret_ref r)
  end.

(** The contents of the returned array. *)
Definition array_of (st : store) (r : returned) : list (list (option Z)) :=
  match r with
  | ret_ref ref_sudoku => map (map Some) (sudoku st)
  | ret_ref ref_sol_array => sol_array st
  | ret_new a => a
  end.

Definition solve (ord : set_order) (fuel : nat) (sudoku : list (list Z))
  : outcome (list (list (option Z))) :=
  '(st, r) ← sudoku_solver ord fuel sudoku; Ok (array_of st r).

(** * Properties *)

(** ** Inversion of monadic computations *)

Lemma bind_Ok {A B : Type} (m : outcome A) (k : A -> outcome B) (b : B) :
  m ≫= k = Ok b <-> exists a, m = Ok a /\ k a = Ok b.
Proof.
  destruct m as [a| |]; simpl; split; try (intros [a' [? ?]]); try discriminate.
  - intros H. exists a. done.
  - congruence.
Qed.

Lemma or_raise_Ok {A : Type} (e : exn) (o : option A) (a : A) :
  or_raise e o = Ok a <-> o = Some a.
Proof. destruct o; simpl; split; congruence. Qed.

Lemma ret_Ok {A : Type} (a b : A) : mret a = Ok b <-> a = b.
Proof. unfold mret, outcome_ret. split; congruence. Qed.

(** Break a hypothesis [m ≫= k = Ok b] into its successive steps. *)
Ltac inv_ok :=
  repeat match goal with
  | H : _ ≫= _ = Ok _ |- _ =>
      apply bind_Ok in H; destruct H as (? & ? & H)
  | H : or_raise _ _ = Ok _ |- _ => apply or_raise_Ok in H
  | H : Ok ?a = Ok ?b |- _ =>
      assert (a = b) by congruence; clear H; simplify_eq
  | H : Raise _ = Ok _ |- _ => discriminate H
  | H : OutOfFuel = Ok _ |- _ => discriminate H
  end.

(** ** Arrays of nine rows of nine entries *)

Definition shape9 {A : Type} (a : list (list A)) : Prop :=
  length a = 9%nat /\ Forall (fun row => length row = 9%nat) a.

Definition in_range (var : cell) : Prop := (var.1 < 9)%nat /\ (var.2 < 9)%nat.

#[global] Instance in_range_dec var : Decision (in_range var).
Proof. unfold in_range. apply _. Defined.

Lemma grid_lookup_Some_range {A : Type} (a : list (list A)) var x :
  shape9 a -> grid_lookup a var = Some x -> in_range var.
Proof.
  intros [Hlen Hrows] H. unfold grid_lookup in H.
  destruct (a !! var.1) as [row|] eqn:Hrow; simpl in H; [|done].
  split.
  - apply lookup_lt_Some in Hrow. lia.
  - apply lookup_lt_Some in H.
    rewrite Forall_lookup in Hrows. rewrite (Hrows _ _ Hrow) in H. done.
Qed.

Lemma grid_lookup_is_Some {A : Type} (a : list (list A)) var :
  shape9 a -> in_range var -> is_Some (grid_lookup a var).
Proof.
  intros [Hlen Hrows] [H1 H2]. unfold grid_lookup.
  destruct (lookup_lt_is_Some_2 a var.1) as [row Hrow]; [lia|].
  rewrite Hrow. simpl. apply lookup_lt_is_Some_2.
  rewrite Forall_lookup in Hrows. rewrite (Hrows _ _ Hrow). done.
Qed.

Lemma grid_store_is_Some {A : Type} (a : list (list A)) var x :
  shape9 a -> in_range var -> is_Some (grid_store a var x).
Proof.
  intros [Hlen Hrows] [H1 H2]. unfold grid_store.
  destruct (lookup_lt_is_Some_2 a var.1) as [row Hrow]; [lia|].
  rewrite Hrow. simpl.
  rewrite Forall_lookup in Hrows. rewrite (Hrows _ _ Hrow).
  rewrite decide_True by done. eauto.
Qed.

Lemma grid_store_shape {A : Type} (a a' : list (list A)) var x :
  shape9 a -> grid_store a var x = Some a' -> shape9 a'.
Proof.
  intros [Hlen Hrows] H. unfold grid_store in H.
  destruct (a !! var.1) as [row|] eqn:Hrow; simpl in H; [|done].
  case_decide; [|done]. injection H as <-. split.
  - by rewrite length_insert.
  - apply Forall_insert; [done|]. rewrite length_insert.
    rewrite Forall_lookup in Hrows. eauto.
Qed.

Lemma grid_lookup_store_eq {A : Type} (a a' : list (list A)) var x :
  grid_store a var x = Some a' -> grid_lookup a' var = Some x.
Proof.
  intros H. unfold grid_store in H.
  destruct (a !! var.1) as [row|] eqn:Hrow; simpl in H; [|done].
  case_decide; [|done]. injection H as <-. unfold grid_lookup.
  rewrite list_lookup_insert_eq by (by eapply lookup_lt_Some).
  simpl. by rewrite list_lookup_insert_eq.
Qed.

Lemma grid_lookup_store_ne {A : Type} (a a' : list (list A)) var var' x :
  grid_store a var x = Some a' -> var <> var' ->
  grid_lookup a' var' = grid_lookup a var'.
Proof.
  intros H Hne. unfold grid_store in H.
  destruct (a !! var.1) as [row|] eqn:Hrow; simpl in H; [|done].
  case_decide; [|done]. injection H as <-. unfold grid_lookup.
  destruct (decide (var.1 = var'.1)) as [Heq|Hneq].
  - rewrite <- Heq.
    rewrite list_lookup_insert_eq by (by eapply lookup_lt_Some).
    rewrite Hrow. simpl. apply list_lookup_insert_ne.
    intros Heq2. apply Hne. destruct var, var'; simpl in *; congruence.
  - by rewrite list_lookup_insert_ne.
Qed.

(** Writing back the entry that was overwritten gives the array back. *)
Lemma grid_store_undo {A : Type} (a a1 a2 : list (list A)) var x y :
  grid_lookup a var = Some x ->
  grid_store a var y = Some a1 ->
  grid_store a1 var x = Some a2 ->
  a2 = a.
Proof.
  intros Hx H1 H2. unfold grid_lookup, grid_store in *.
  destruct (a !! var.1) as [row|] eqn:Hrow; simpl in *; [|done].
  case_decide; [|done]. injection H1 as <-.
  rewrite list_lookup_insert_eq in H2 by (by eapply lookup_lt_Some).
  simpl in H2. rewrite length_insert in H2.
  rewrite decide_True in H2 by done. injection H2 as <-.
  rewrite list_insert_insert_eq, list_insert_insert_eq.
  rewrite (list_insert_id row) by done. by rewrite list_insert_id.
Qed.

Lemma elem_of_join_grid {A : Type} (a : list (list A)) x :
  x ∈ mjoin a <-> exists var, grid_lookup a var = Some x.
Proof.
  rewrite list_elem_of_join. split.
  - intros (row & Hx & Hrow).
    apply list_elem_of_lookup in Hrow as [i Hi].
    apply list_elem_of_lookup in Hx as [j Hj].
    exists (i, j). unfold grid_lookup. simpl. rewrite Hi. done.
  - intros [[i j] H]. unfold grid_lookup in H. simpl in H.
    destruct (a !! i) as [row|] eqn:Hrow; simpl in H; [|done].
    exists row. split; eapply list_elem_of_lookup_2; eauto.
Qed.

(** ** Geometry of the board *)

Definition same_box (c1 c2 : cell) : Prop :=
  (c1.1 / 3 = c2.1 / 3)%nat /\ (c1.2 / 3 = c2.2 / 3)%nat.

(** Two distinct cells are peers when they share a row, a column or a
    3x3 box. *)
Definition peer (c1 c2 : cell) : Prop :=
  c1 <> c2 /\ (c1.1 = c2.1 \/ c1.2 = c2.2 \/ same_box c1 c2).

#[global] Instance same_box_dec c1 c2 : Decision (same_box c1 c2).
Proof. unfold same_box. apply _. Defined.

#[global] Instance peer_dec c1 c2 : Decision (peer c1 c2).
Proof. unfold peer. apply _. Defined.

Lemma peer_sym c1 c2 : peer c1 c2 -> peer c2 c1.
Proof. unfold peer, same_box. intuition congruence. Qed.

Lemma elem_of_all_variables (n : nat) (var : cell) :
  var ∈ all_variables n <-> (var.1 < n)%nat /\ (var.2 < n)%nat.
Proof.
  unfold all_variables. rewrite list_elem_of_bind. split.
  - intros (i & Hin & Hi). apply list_elem_of_bind in Hin as (j & Hin & Hj).
    apply list_elem_of_singleton in Hin as ->. simpl.
    apply elem_of_seq in Hi, Hj. lia.
  - intros [H1 H2]. exists var.1. split; [|apply elem_of_seq; lia].
    apply list_elem_of_bind. exists var.2. split; [|apply elem_of_seq; lia].
    destruct var. simpl. apply list_elem_of_singleton. done.
Qed.

Lemma in_range_variables (var : cell) : in_range var <-> var ∈ all_variables 9.
Proof. by rewrite elem_of_all_variables. Qed.

(** What the three loops of [populate_members] collect on a 9x9 board,
    checked cell by cell. *)
Lemma members_of_checked :
  Forall (fun var =>
            Forall in_range (members_of 9 var) /\
            Forall (fun x => x ∈ members_of 9 var <-> peer var x) (all_variables 9) /\
            length (members_of 9 var) = 24%nat /\
            size (list_to_set (C := gset cell) (members_of 9 var)) = 20%nat)
         (all_variables 9).
Proof. apply (bool_decide_unpack _). vm_compute. exact I. Qed.

Lemma members_of_range var x :
  in_range var -> x ∈ members_of 9 var -> in_range x.
Proof.
  intros Hvar Hx. apply in_range_variables in Hvar.
  pose proof members_of_checked as H. rewrite Forall_forall in H.
  destruct (H _ Hvar) as (Hr & _). rewrite Forall_forall in Hr. auto.
Qed.

Lemma members_of_peer var x :
  in_range var -> x ∈ members_of 9 var <-> in_range x /\ peer var x.
Proof.
  intros Hvar. split.
  - intros Hx. pose proof (members_of_range _ _ Hvar Hx) as Hrx.
    split; [done|]. apply in_range_variables in Hvar, Hrx.
    pose proof members_of_checked as H. rewrite Forall_forall in H.
    destruct (H _ Hvar) as (_ & Hp & _). rewrite Forall_forall in Hp.
    by apply Hp.
  - intros [Hrx Hp]. apply in_range_variables in Hvar, Hrx.
    pose proof members_of_checked as H. rewrite Forall_forall in H.
    destruct (H _ Hvar) as (_ & Hq & _). rewrite Forall_forall in Hq.
    by apply Hq.
Qed.

(** ** Domain setup on a well-formed input *)

(** A 9x9 array with entries in 0..9. *)
Definition well_formed (sudoku : list (list Z)) : Prop :=
  shape9 sudoku /\ Forall (Forall (fun x => 0 <= x <= 9)) sudoku.

#[global] Instance shape9_dec {A : Type} (a : list (list A)) : Decision (shape9 a).
Proof. unfold shape9. apply _. Defined.

#[global] Instance well_formed_dec sudoku : Decision (well_formed sudoku).
Proof. unfold well_formed. apply _. Defined.

Lemma well_formed_entry sudoku var x :
  well_formed sudoku -> grid_lookup sudoku var = Some x -> 0 <= x <= 9.
Proof.
  intros [_ Hent] H. unfold grid_lookup in H.
  destruct (sudoku !! var.1) as [row|] eqn:Hrow; simpl in H; [|done].
  rewrite Forall_lookup in Hent. specialize (Hent _ _ Hrow).
  rewrite Forall_lookup in Hent. eauto.
Qed.

(** The candidate set of a cell that holds [x] in the input. *)
Definition initial_values (x : Z) : gset Z :=
  if decide (x = 0) then list_to_set (seqZ 1 9) else {[ x ]}.

Lemma populate_order_values_spec sudoku variables order_values :
  Forall (fun var => is_Some (grid_lookup sudoku var)) variables ->
  exists ov, populate_order_values sudoku variables order_values = Ok ov /\
    forall var, ov !! var =
      if decide (var ∈ variables)
      then initial_values <$> grid_lookup sudoku var
      else order_values !! var.
Proof.
  revert order_values. induction variables as [|v vs IH]; intros ov0 Hall.
  - exists ov0. split; [done|]. intros var. rewrite decide_False; [done|].
    apply not_elem_of_nil.
  - apply Forall_cons in Hall as [[x Hx] Hall]. simpl. rewrite Hx. simpl.
    set (ov1 := <[v := initial_values x]> ov0).
    destruct (IH ov1 Hall) as (ov & Hov & Hlk).
    exists ov. split.
    + unfold initial_values in ov1. destruct (decide (x = 0)); exact Hov.
    + intros var. rewrite Hlk.
      destruct (decide (var ∈ vs)) as [Hin|Hnin].
      * rewrite decide_True; [done|]. by apply list_elem_of_further.
      * destruct (decide (var = v)) as [->|Hne].
        -- rewrite decide_True by apply list_elem_of_here.
           unfold ov1. rewrite lookup_insert_eq, Hx. done.
        -- rewrite decide_False.
           ++ unfold ov1. by rewrite lookup_insert_ne.
           ++ rewrite elem_of_cons. tauto.
Qed.

Lemma populate_members_spec sudoku row0 variables members :
  sudoku !! 0%nat = Some row0 ->
  exists ms, populate_members sudoku variables members = Ok ms /\
    forall var, ms !! var =
      if decide (var ∈ variables)
      then Some (members_of (length row0) var)
      else members !! var.
Proof.
  intros Hrow. revert members.
  induction variables as [|v vs IH]; intros ms0.
  - exists ms0. split; [done|]. intros var. rewrite decide_False; [done|].
    apply not_elem_of_nil.
  - simpl. rewrite Hrow. simpl.
    destruct (IH (<[v := members_of (length row0) v]> ms0)) as (ms & Hms & Hlk).
    exists ms. split; [done|].
    intros var. rewrite Hlk.
    destruct (decide (var ∈ vs)) as [Hin|Hnin].
    + rewrite decide_True; [done|]. by apply list_elem_of_further.
    + destruct (decide (var = v)) as [->|Hne].
      * rewrite decide_True by apply list_elem_of_here.
        by rewrite lookup_insert_eq.
      * rewrite decide_False.
        -- by rewrite lookup_insert_ne.
        -- rewrite elem_of_cons. tauto.
Qed.

(** ** Variable selection *)

(** Enumeration order of the cells: row by row, left to right. *)
Definition row_major_lt (c1 c2 : cell) : Prop :=
  (c1.1 < c2.1)%nat \/ (c1.1 = c2.1 /\ (c1.2 < c2.2)%nat).

#[global] Instance row_major_lt_dec c1 c2 : Decision (row_major_lt c1 c2).
Proof. unfold row_major_lt. apply _. Defined.

Lemma all_variables_sorted : StronglySorted row_major_lt (all_variables 9).
Proof. apply (bool_decide_unpack _). vm_compute. exact I. Qed.

Lemma StronglySorted_filter {A : Type} (R : relation A) (P : A -> Prop)
    `{!forall x, Decision (P x)} (l : list A) :
  StronglySorted R l -> StronglySorted R (filter P l).
Proof.
  induction 1 as [|x l Hl IH Hx]; [constructor|].
  rewrite filter_cons. destruct (decide (P x)); [|done].
  constructor; [done|]. rewrite Forall_forall in *.
  intros y Hy. apply list_elem_of_filter in Hy as [_ Hy]. auto.
Qed.

Lemma StronglySorted_lookup_lt {A : Type} (R : relation A) (l : list A) i j x y :
  StronglySorted R l -> l !! i = Some x -> l !! j = Some y -> (i < j)%nat -> R x y.
Proof.
  intros Hl. revert i j. induction Hl as [|z l Hl IH Hz]; intros i j Hi Hj Hlt.
  - done.
  - destruct j as [|j]; [lia|]. simpl in Hj. destruct i as [|i].
    + simpl in Hi. injection Hi as ->. rewrite Forall_forall in Hz.
      apply Hz. by eapply list_elem_of_lookup_2.
    + simpl in Hi. apply (IH i j); [done|done|lia].
Qed.

Lemma empty_variables_spec (a : list (list (option Z))) variables :
  Forall (fun var => is_Some (grid_lookup a var)) variables ->
  empty_variables a variables =
    Ok (filter (fun var => grid_lookup a var = Some None) variables).
Proof.
  induction 1 as [|v vs [x Hx] Hall IH]; [done|].
  simpl. rewrite Hx, IH. simpl. rewrite filter_cons.
  destruct (decide (x = None)) as [->|Hne].
  - by rewrite decide_True.
  - rewrite decide_False; [done|]. congruence.
Qed.

(** [len(order_values[var])], for a key that is present. *)
Definition candidates (order_values : gmap cell (gset Z)) (var : cell) : gset Z :=
  default ∅ (order_values !! var).

Lemma value_sizes_spec order_values vars :
  Forall (fun var => is_Some (order_values !! var)) vars ->
  value_sizes order_values vars =
    Ok ((fun var => size (candidates order_values var)) <$> vars).
Proof.
  induction 1 as [|v vs [s Hs] Hall IH]; [done|].
  simpl. rewrite Hs, IH. simpl. unfold candidates at 2. by rewrite Hs.
Qed.

Lemma argmin_from_spec (l : list nat) (best_i best i : nat) :
  (argmin_from best_i best i l = best_i /\ Forall (fun x => best <= x)%nat l) \/
  (exists j x, argmin_from best_i best i l = (i + j)%nat /\ l !! j = Some x /\
     (x < best)%nat /\
     forall j' x', l !! j' = Some x' -> (x <= x')%nat /\ (x' = x -> (j <= j')%nat)).
Proof.
  revert best_i best i. induction l as [|x l IH]; intros bi b i; simpl.
  - left. done.
  - destruct (Nat.ltb_spec x b) as [Hlt|Hge].
    + right. destruct (IH i x (S i)) as [[Hr Hall]|(j & y & Hr & Hj & Hy & Hmin)].
      * exists 0%nat, x. split; [rewrite Hr; lia|]. split; [done|]. split; [done|].
        intros [|j'] x' Hx'; simpl in Hx'.
        -- injection Hx' as ->. lia.
        -- rewrite Forall_forall in Hall. split; [|lia].
           apply Hall. by eapply list_elem_of_lookup_2.
      * exists (S j), y. split; [rewrite Hr; lia|]. split; [done|]. split; [lia|].
        intros [|j'] x' Hx'; simpl in Hx'.
        -- injection Hx' as ->. lia.
        -- destruct (Hmin _ _ Hx'). split; [done|]. lia.
    + destruct (IH bi b (S i)) as [[Hr Hall]|(j & y & Hr & Hj & Hy & Hmin)].
      * left. split; [done|]. by constructor.
      * right. exists (S j), y. split; [rewrite Hr; lia|]. split; [done|].
        split; [done|].
        intros [|j'] x' Hx'; simpl in Hx'.
        -- injection Hx' as ->. lia.
        -- destruct (Hmin _ _ Hx'). split; [done|]. lia.
Qed.

Lemma argmin_spec (l : list nat) :
  l <> [] ->
  exists i m, argmin l = Ok i /\ l !! i = Some m /\
    forall j x, l !! j = Some x -> (m <= x)%nat /\ (x = m -> (i <= j)%nat).
Proof.
  destruct l as [|x l]; [done|]. intros _. simpl.
  destruct (argmin_from_spec l 0 x 1) as [[Hr Hall]|(j & y & Hr & Hj & Hy & Hmin)].
  - exists 0%nat, x. rewrite Hr. split; [done|]. split; [done|].
    intros [|j'] x' Hx'; simpl in Hx'.
    + injection Hx' as ->. lia.
    + rewrite Forall_forall in Hall. split; [|lia].
      apply Hall. by eapply list_elem_of_lookup_2.
  - exists (S j), y. rewrite Hr. split; [done|]. split; [done|].
    intros [|j'] x' Hx'; simpl in Hx'.
    + injection Hx' as ->. lia.
    + destruct (Hmin _ _ Hx'). split; [done|]. lia.
Qed.

(** The cell chosen by [get_empty_var]: unassigned, with the fewest
    candidates, and the first such cell of the enumeration. *)
Lemma get_empty_var_spec sol ov :
  shape9 sol ->
  (forall var, in_range var -> is_Some (ov !! var)) ->
  None ∈ mjoin sol ->
  exists var,
    get_empty_var sol ov (all_variables 9) = Ok var /\
    in_range var /\ grid_lookup sol var = Some None /\
    forall var', in_range var' -> grid_lookup sol var' = Some None ->
      (size (candidates ov var) <= size (candidates ov var'))%nat /\
      (size (candidates ov var') = size (candidates ov var) ->
       var = var' \/ row_major_lt var var').
Proof.
  intros Hshape Hkeys Hnone.
  set (evs := filter (fun var => grid_lookup sol var = Some None) (all_variables 9)).
  assert (Hevs : empty_variables sol (all_variables 9) = Ok evs).
  { apply empty_variables_spec. apply Forall_forall. intros var Hvar.
    apply grid_lookup_is_Some; [done|]. by apply in_range_variables. }
  assert (Hin : forall var, var ∈ evs <-> in_range var /\ grid_lookup sol var = Some None).
  { intros var. unfold evs. rewrite list_elem_of_filter, in_range_variables. tauto. }
  assert (Hsizes : value_sizes ov evs =
                   Ok ((fun var => size (candidates ov var)) <$> evs)).
  { apply value_sizes_spec. apply Forall_forall. intros var Hvar.
    apply Hkeys. by apply Hin. }
  apply elem_of_join_grid in Hnone as [var0 Hvar0].
  assert (Hne : (fun var => size (candidates ov var)) <$> evs <> []).
  { intros Hnil. apply fmap_nil_inv in Hnil.
    assert (Hv : var0 ∈ evs).
    { apply Hin. split; [|done]. by eapply grid_lookup_Some_range. }
    rewrite Hnil in Hv. by apply not_elem_of_nil in Hv. }
  destruct (argmin_spec _ Hne) as (i & m & Hi & Hm & Hmin).
  rewrite list_lookup_fmap in Hm.
  destruct (evs !! i) as [var|] eqn:Hvar; simpl in Hm; [|done].
  injection Hm as Hm.
  exists var. split.
  { unfold get_empty_var. rewrite Hevs. simpl. rewrite Hsizes. simpl.
    rewrite Hi. simpl. by rewrite Hvar. }
  assert (Hvin : var ∈ evs) by (by eapply list_elem_of_lookup_2).
  apply Hin in Hvin as [Hr Hl]. split; [done|]. split; [done|].
  intros var' Hr' Hl'.
  assert (Hvin' : var' ∈ evs) by (by apply Hin).
  apply list_elem_of_lookup in Hvin' as [j Hj].
  destruct (Hmin j (size (candidates ov var'))) as [Hle Hfirst].
  { by rewrite list_lookup_fmap, Hj. }
  split; [lia|]. intros Heq.
  assert (Hij : (i <= j)%nat) by (apply Hfirst; lia).
  destruct (decide (i = j)) as [->|Hneq].
  - left. congruence.
  - right. apply (StronglySorted_lookup_lt row_major_lt evs i j); [|done|done|lia].
    apply StronglySorted_filter, all_variables_sorted.
Qed.

(** ** Constraint checking *)

Lemma is_valid_loop_true value ms sol :
  is_valid_loop value ms sol = Ok true ->
  forall m, m ∈ ms -> grid_lookup sol m <> Some (Some value).
Proof.
  induction ms as [|m0 ms IH]; simpl; intros H m Hm.
  - by apply not_elem_of_nil in Hm.
  - inv_ok. case_decide; [discriminate|].
    apply elem_of_cons in Hm as [->|Hm]; [congruence|by apply IH].
Qed.

Lemma is_valid_loop_total value ms sol :
  Forall (fun m => is_Some (grid_lookup sol m)) ms ->
  exists b, is_valid_loop value ms sol = Ok b.
Proof.
  induction 1 as [|m ms [x Hx] Hall [b IH]]; simpl; [by eexists|].
  rewrite Hx. simpl. case_decide; eauto.
Qed.

(** The effect of the restoring loop on each candidate set. *)
Lemma restore_changes_lookup value changes ov ov' :
  restore_changes value changes ov = Ok ov' ->
  forall c, ov' !! c =
    if decide (c ∈ changes) then (fun s => s ∪ {[ value ]}) <$> ov !! c
    else ov !! c.
Proof.
  revert ov. induction changes as [|c0 cs IH]; simpl; intros ov H c.
  - by inv_ok.
  - inv_ok. rename x into s. rewrite (IH _ H c).
    destruct (decide (c = c0)) as [->|Hne].
    + rewrite lookup_insert_eq. rewrite (decide_True (P := c0 ∈ c0 :: cs))
        by apply list_elem_of_here.
      rewrite H0. simpl. case_decide; [|done]. f_equal. set_solver.
    + rewrite lookup_insert_ne by done.
      destruct (decide (c ∈ cs)) as [Hin|Hnin].
      * rewrite decide_True; [done|]. by apply list_elem_of_further.
      * rewrite decide_False; [done|]. rewrite elem_of_cons. tauto.
Qed.

Lemma restore_changes_total value changes ov :
  Forall (fun c => is_Some (ov !! c)) changes ->
  exists ov', restore_changes value changes ov = Ok ov'.
Proof.
  revert ov. induction changes as [|c0 cs IH]; simpl; intros ov Hall.
  - by eexists.
  - apply Forall_cons in Hall as [[s Hs] Hall]. rewrite Hs. simpl.
    apply IH. eapply Forall_impl; [exact Hall|]. intros c [s' Hs'].
    destruct (decide (c0 = c)) as [->|Hne].
    + rewrite lookup_insert_eq. eauto.
    + rewrite lookup_insert_ne by done. eauto.
Qed.

(** [ov] is [ov0] with [value] discarded from the sets of [changes], all
    of which held it: the state of [forward_check] between two members. *)
Definition discarded (value : Z) (ov0 ov : gmap cell (gset Z))
    (changes : list cell) : Prop :=
  (forall c, ov !! c =
     if decide (c ∈ changes) then (fun s => s ∖ {[ value ]}) <$> ov0 !! c
     else ov0 !! c) /\
  (forall c, c ∈ changes -> exists s, ov0 !! c = Some s /\ value ∈ s).

Lemma discarded_restore value ov0 ov changes ov' :
  discarded value ov0 ov changes ->
  restore_changes value changes ov = Ok ov' ->
  ov' = ov0.
Proof.
  intros [Hlk Hin] Hres. apply map_eq. intros c.
  rewrite (restore_changes_lookup _ _ _ _ Hres c), Hlk.
  destruct (decide (c ∈ changes)) as [Hc|Hc]; [|done].
  destruct (Hin _ Hc) as (s & -> & Hs). simpl. f_equal.
  apply set_eq. intros x. rewrite elem_of_union, elem_of_difference,
    elem_of_singleton. destruct (decide (x = value)); naive_solver.
Qed.

Lemma discarded_step value ov0 ov changes m s :
  discarded value ov0 ov changes ->
  ov !! m = Some s -> value ∈ s ->
  discarded value ov0 (<[m := s ∖ {[ value ]}]> ov) (changes ++ [m]).
Proof.
  intros [Hlk Hin] Hm Hs.
  assert (Hnin : m ∉ changes).
  { intros Hc. rewrite Hlk, decide_True in Hm by done.
    destruct (ov0 !! m) as [s0|]; simpl in Hm; [|done].
    injection Hm as <-. set_solver. }
  assert (Hm0 : ov0 !! m = Some s).
  { rewrite Hlk, decide_False in Hm by done. done. }
  split.
  - intros c. destruct (decide (c = m)) as [->|Hne].
    + rewrite lookup_insert_eq, decide_True by set_solver.
      by rewrite Hm0.
    + rewrite lookup_insert_ne by done. rewrite Hlk.
      destruct (decide (c ∈ changes)) as [Hc|Hc].
      * rewrite decide_True by set_solver. done.
      * rewrite decide_False by set_solver. done.
  - intros c Hc. apply elem_of_app in Hc as [Hc|Hc]; [by apply Hin|].
    apply list_elem_of_singleton in Hc as ->. eauto.
Qed.

Lemma forward_check_loop_false value ov0 ms ov changes ov' :
  discarded value ov0 ov changes ->
  forward_check_loop value ms ov changes = Ok (ov', false) ->
  ov' = ov0.
Proof.
  revert ov changes. induction ms as [|m ms IH]; simpl; intros ov changes Hd H.
  - inv_ok.
  - inv_ok. rename x into s. case_decide as Hs.
    + inv_ok. rename x into s1. case_decide as Hsz.
      * inv_ok. eapply discarded_restore; [|done].
        by apply discarded_step.
      * eapply IH; [|done]. by apply discarded_step.
    + by eapply IH.
Qed.

Lemma forward_check_loop_true value ms ov changes ov' :
  forward_check_loop value ms ov changes = Ok (ov', true) ->
  (forall c, ov' !! c =
     if decide (c ∈ ms) then (fun s => s ∖ {[ value ]}) <$> ov !! c
     else ov !! c) /\
  (forall m s, m ∈ ms -> ov !! m = Some s -> value ∈ s -> s ∖ {[ value ]} <> ∅).
Proof.
  revert ov changes. induction ms as [|m ms IH]; simpl; intros ov changes H.
  - inv_ok. split; [done|].
    intros m s Hm. by apply not_elem_of_nil in Hm.
  - inv_ok. rename x into s. case_decide as Hs.
    + inv_ok. rename x into s1. case_decide as Hsz; [inv_ok|].
      rewrite lookup_insert_eq in H1. injection H1 as <-.
      apply IH in H as [Hlk Hne]. split.
      * intros c. rewrite Hlk. destruct (decide (c = m)) as [->|Hcm].
        -- rewrite lookup_insert_eq, H0.
           rewrite (decide_True (P := m ∈ m :: ms)) by apply list_elem_of_here.
           case_decide; simpl; [|done]. f_equal. set_solver.
        -- rewrite lookup_insert_ne by done.
           destruct (decide (c ∈ ms)) as [Hin|Hnin].
           ++ rewrite decide_True; [done|]. by apply list_elem_of_further.
           ++ rewrite decide_False; [done|]. rewrite elem_of_cons. tauto.
      * intros m' s' Hm' Hs' Hv. destruct (decide (m' = m)) as [->|Hmm].
        -- assert (s' = s) as -> by congruence.
           intros Hemp. apply Hsz. rewrite Hemp. apply size_empty.
        -- apply elem_of_cons in Hm' as [?|Hm']; [done|].
           apply (Hne m' s' Hm'); [|done]. by rewrite lookup_insert_ne.
    + apply IH in H as [Hlk Hne]. split.
      * intros c. rewrite Hlk. destruct (decide (c = m)) as [->|Hcm].
        -- rewrite (decide_True (P := m ∈ m :: ms)) by apply list_elem_of_here.
           rewrite H0. simpl. case_decide; simpl; [done|].
           f_equal. set_solver.
        -- destruct (decide (c ∈ ms)) as [Hin|Hnin].
           ++ rewrite decide_True; [done|]. by apply list_elem_of_further.
           ++ rewrite decide_False; [done|]. rewrite elem_of_cons. tauto.
      * intros m' s' Hm' Hs' Hv. destruct (decide (m' = m)) as [->|Hmm].
        -- congruence.
        -- apply elem_of_cons in Hm' as [?|Hm']; [done|]. by apply (Hne m' s').
Qed.

Lemma forward_check_loop_total value ms ov changes :
  Forall (fun c => is_Some (ov !! c)) ms ->
  Forall (fun c => is_Some (ov !! c)) changes ->
  exists r, forward_check_loop value ms ov changes = Ok r.
Proof.
  revert ov changes. induction ms as [|m ms IH]; simpl; intros ov changes Hms Hch.
  - by eexists.
  - apply Forall_cons in Hms as [[s Hs] Hms]. rewrite Hs. simpl.
    case_decide as Hv; [|by apply IH].
    rewrite lookup_insert_eq. simpl.
    assert (Hkeep : forall l, Forall (fun c => is_Some (ov !! c)) l ->
              Forall (fun c => is_Some (<[m := s ∖ {[ value ]}]> ov !! c)) l).
    { intros l Hl. eapply Forall_impl; [exact Hl|]. intros c [s' Hs'].
      destruct (decide (m = c)) as [->|Hne].
      - rewrite lookup_insert_eq. eauto.
      - rewrite lookup_insert_ne by done. eauto. }
    assert (Hch1 : Forall (fun c => is_Some (<[m := s ∖ {[ value ]}]> ov !! c))
                     (changes ++ [m])).
    { apply Forall_app. split; [by apply Hkeep|].
      apply Forall_singleton. rewrite lookup_insert_eq. eauto. }
    case_decide.
    + destruct (restore_changes_total value _ _ Hch1) as [ov' ->]. by eexists.
    + apply IH; [by apply Hkeep|done].
Qed.

Lemma forward_check_false var value members ov ov' :
  forward_check var value members ov = Ok (ov', false) -> ov' = ov.
Proof.
  unfold forward_check. intros H. inv_ok.
  eapply forward_check_loop_false; [|done].
  split; [|by intros c Hc; apply not_elem_of_nil in Hc].
  intros c. rewrite decide_False; [done|]. apply not_elem_of_nil.
Qed.

Lemma forward_check_true var value members ov ov' :
  forward_check var value members ov = Ok (ov', true) ->
  exists ms, members !! var = Some ms /\
    (forall c, ov' !! c =
       if decide (c ∈ ms) then (fun s => s ∖ {[ value ]}) <$> ov !! c
       else ov !! c) /\
    (forall m s, m ∈ ms -> ov !! m = Some s -> value ∈ s ->
       exists s', ov' !! m = Some s' /\ s' <> ∅).
Proof.
  unfold forward_check. intros H. inv_ok. rename x into ms.
  apply forward_check_loop_true in H as [Hlk Hne].
  exists ms. split; [done|]. split; [done|].
  intros m s Hm Hs Hv. exists (s ∖ {[ value ]}). split; [|by eapply Hne].
  rewrite Hlk, decide_True, Hs by done. done.
Qed.

(** Every set of [ov'] is a subset of the set [ov] has for the same key,
    and the keys are the same. *)
Definition shrinks (ov ov' : gmap cell (gset Z)) : Prop :=
  dom ov' = dom ov /\
  forall var s', ov' !! var = Some s' ->
    exists s, ov !! var = Some s /\ s' ⊆ s.

Lemma forward_check_shrinks var value members ov ov' ok :
  forward_check var value members ov = Ok (ov', ok) -> shrinks ov ov'.
Proof.
  destruct ok; intros H.
  - apply forward_check_true in H as (ms & _ & Hlk & _). split.
    + apply set_eq. intros c. rewrite !elem_of_dom, Hlk.
      case_decide; [|done]. by rewrite fmap_is_Some.
    + intros c s' Hs'. rewrite Hlk in Hs'. case_decide; [|by eauto].
      destruct (ov !! c) as [s|]; simpl in Hs'; [|done].
      injection Hs' as <-. exists s. split; [done|]. set_solver.
  - apply forward_check_false in H as ->. split; [done|]. eauto.
Qed.

Lemma forward_check_total var value members ms ov :
  members !! var = Some ms ->
  Forall (fun c => is_Some (ov !! c)) ms ->
  exists r, forward_check var value members ov = Ok r.
Proof.
  intros Hms Hall. unfold forward_check. rewrite Hms. simpl.
  by apply forward_check_loop_total.
Qed.

(** [order_values.update(old_order_values)] puts the snapshot back. *)
Lemma update_snapshot (old ov : gmap cell (gset Z)) :
  dom ov = dom old -> old ∪ ov = old.
Proof.
  intros Hdom. apply map_eq. intros c. rewrite lookup_union.
  destruct (old !! c) as [s|] eqn:Hold.
  - by destruct (ov !! c).
  - apply not_elem_of_dom in Hold. rewrite <- Hdom in Hold.
    apply not_elem_of_dom in Hold. by rewrite Hold.
Qed.

(** ** The number of unassigned cells *)

Definition unassigned (a : list (list (option Z))) : nat :=
  length (filter (fun var => grid_lookup a var = Some None) (all_variables 9)).

Lemma length_filter_lt_strict {A : Type} (P Q : A -> Prop)
    `{!forall x, Decision (P x)} `{!forall x, Decision (Q x)} (l : list A) (x : A) :
  (forall y, y ∈ l -> P y -> Q y) -> x ∈ l -> Q x -> ~ P x ->
  (length (filter P l) < length (filter Q l))%nat.
Proof.
  intros Himp Hx HQ HP.
  assert (Hle : forall k : list A, (forall y, y ∈ k -> P y -> Q y) ->
            (length (filter P k) <= length (filter Q k))%nat).
  { induction k as [|y k IH]; intros Hk; [done|].
    rewrite !filter_cons.
    assert (Hk' : forall z, z ∈ k -> P z -> Q z)
      by (intros z Hz; apply Hk; by apply list_elem_of_further).
    specialize (IH Hk').
    destruct (decide (P y)) as [Hy|Hy].
    - rewrite decide_True by (apply Hk; [apply list_elem_of_here|done]).
      simpl. lia.
    - destruct (decide (Q y)); simpl; lia. }
  induction l as [|y l IH]; [by apply not_elem_of_nil in Hx|].
  rewrite !filter_cons.
  assert (Hl : forall z, z ∈ l -> P z -> Q z)
    by (intros z Hz; apply Himp; by apply list_elem_of_further).
  apply elem_of_cons in Hx as [<-|Hx].
  - rewrite decide_False, decide_True by done. simpl.
    specialize (Hle l Hl). lia.
  - specialize (IH Hl Hx).
    destruct (decide (P y)) as [Hy|Hy].
    + rewrite decide_True by (apply Himp; [apply list_elem_of_here|done]).
      simpl. lia.
    + destruct (decide (Q y)); simpl; lia.
Qed.

Lemma unassigned_store a a1 var v :
  in_range var ->
  grid_lookup a var = Some None ->
  grid_store a var (Some v) = Some a1 ->
  (unassigned a1 < unassigned a)%nat.
Proof.
  intros Hr Hnone Hst. unfold unassigned.
  apply (length_filter_lt_strict _ _ _ var).
  - intros y _ Hy. destruct (decide (var = y)) as [<-|Hne].
    + rewrite (grid_lookup_store_eq _ _ _ _ Hst) in Hy. done.
    + by rewrite (grid_lookup_store_ne _ _ _ _ _ Hst Hne) in Hy.
  - by apply in_range_variables.
  - done.
  - rewrite (grid_lookup_store_eq _ _ _ _ Hst). done.
Qed.

Lemma unassigned_bound a : (unassigned a <= 81)%nat.
Proof.
  unfold unassigned. etrans; [apply length_filter|]. done.
Qed.

(** ** The search *)

(** No two peers hold the same value. *)
Definition peers_differ (a : list (list (option Z))) : Prop :=
  forall c1 c2 v1 v2, peer c1 c2 ->
    grid_lookup a c1 = Some (Some v1) -> grid_lookup a c2 = Some (Some v2) ->
    v1 <> v2.

Lemma peers_differ_store a a1 var value :
  shape9 a ->
  peers_differ a ->
  (forall c, peer var c -> grid_lookup a c <> Some (Some value)) ->
  grid_store a var (Some value) = Some a1 ->
  peers_differ a1.
Proof.
  intros Hshape Hpd Hfree Hst c1 c2 v1 v2 Hp H1 H2.
  destruct (decide (var = c1)) as [<-|Hn1].
  - rewrite (grid_lookup_store_eq _ _ _ _ Hst) in H1. injection H1 as <-.
    assert (var <> c2) by (destruct Hp; done).
    rewrite (grid_lookup_store_ne _ _ _ _ _ Hst) in H2 by done.
    intros ->. by apply (Hfree c2).
  - rewrite (grid_lookup_store_ne _ _ _ _ _ Hst) in H1 by done.
    destruct (decide (var = c2)) as [<-|Hn2].
    + rewrite (grid_lookup_store_eq _ _ _ _ Hst) in H2. injection H2 as <-.
      intros ->. apply (Hfree c1); [by apply peer_sym|done].
    + rewrite (grid_lookup_store_ne _ _ _ _ _ Hst) in H2 by done.
      by apply (Hpd c1 c2).
Qed.

Section search_correct.
Context (ord : set_order).
Context (members : gmap cell (list cell)).
Context (ov0 : gmap cell (gset Z)).
Hypothesis members_ok :
  forall var, in_range var -> members !! var = Some (members_of 9 var).

(** What holds of the store whenever [depth_first_search] is entered or
    left; [ov0] is the value of [order_values] at the first call. *)
Record inv (st : store) : Prop := {
  inv_shape : shape9 (sol_array st);
  inv_keys : forall var, in_range var -> is_Some (order_values st !! var);
  inv_shrink : forall var s, order_values st !! var = Some s ->
    exists s0, ov0 !! var = Some s0 /\ s ⊆ s0;
  inv_assigned : forall var v, grid_lookup (sol_array st) var = Some (Some v) ->
    exists s0, ov0 !! var = Some s0 /\ v ∈ s0;
  inv_peers : peers_differ (sol_array st);
  inv_trace : Forall peers_differ (trace st)
}.

(** What a call that starts in [st] and returns [r] in [st'] achieves. *)
Record post (st st' : store) (r : option array_ref) : Prop := {
  post_inv : inv st';
  post_sudoku : sudoku st' = sudoku st;
  post_dom : dom (order_values st') = dom (order_values st);
  post_none : r = None ->
    sol_array st' = sol_array st /\ order_values st' = order_values st;
  post_some : forall ref, r = Some ref ->
    ref = ref_sol_array /\ None ∉ mjoin (sol_array st')
}.

Lemma post_start st0 st st' r :
  sudoku st0 = sudoku st -> sol_array st0 = sol_array st ->
  order_values st0 = order_values st ->
  post st st' r -> post st0 st' r.
Proof.
  intros H1 H2 H3 [Hi Hs Hd Hn Hsm]. split; try done.
  - congruence.
  - congruence.
  - intros Hr. destruct (Hn Hr). split; congruence.
Qed.

Lemma is_valid_true st var value :
  inv st -> in_range var ->
  is_valid var value members (sol_array st) = Ok true ->
  forall c, peer var c -> grid_lookup (sol_array st) c <> Some (Some value).
Proof.
  intros Hinv Hr H c Hp Hc. unfold is_valid in H.
  rewrite (members_ok _ Hr) in H. simpl in H.
  eapply is_valid_loop_true in H; [by apply H|].
  apply members_of_peer; [done|]. split; [|done].
  eapply grid_lookup_Some_range; [apply Hinv|done].
Qed.

Lemma is_valid_total st var value :
  inv st -> in_range var ->
  exists b, is_valid var value members (sol_array st) = Ok b.
Proof.
  intros Hinv Hr. unfold is_valid. rewrite (members_ok _ Hr). simpl.
  apply is_valid_loop_total. apply Forall_forall. intros m Hm.
  apply grid_lookup_is_Some; [apply Hinv|]. by eapply members_of_range.
Qed.

(** One iteration of the loop that ends with the restoring statements
    leaves [sol_array] and [order_values] as it found them, and every
    intermediate content of [sol_array] keeps peers apart. *)
Lemma search_values_post rec loop empty_var values n st :
  (forall st1, inv st1 -> (unassigned (sol_array st1) < n)%nat ->
     exists st1' r1, rec st1 = Ok (st1', r1) /\ post st1 st1' r1) ->
  inv st -> in_range empty_var ->
  grid_lookup (sol_array st) empty_var = Some None ->
  (unassigned (sol_array st) <= n)%nat ->
  (forall v, v ∈ values -> exists s0, ov0 !! empty_var = Some s0 /\ v ∈ s0) ->
  exists st' r,
    search_values members rec loop empty_var values st = Ok (st', r) /\
    post st st' r.
Proof.
  intros Hrec. revert st.
  induction values as [|value values IH]; intros st Hinv Hr Hnone Hn Hvals.
  { exists st, None. split; [done|]. split; try done. }
  assert (IH' : forall st5, inv st5 -> sudoku st5 = sudoku st ->
            sol_array st5 = sol_array st -> order_values st5 = order_values st ->
            exists st' r,
              search_values members rec loop empty_var values st5 = Ok (st', r) /\
              post st st' r).
  { intros st5 Hinv5 Hs5 Ha5 Ho5.
    destruct (IH st5) as (st' & r & Hrun & Hpost); try done.
    - by rewrite Ha5.
    - by rewrite Ha5.
    - intros v Hv. apply Hvals. by apply list_elem_of_further.
    - exists st', r. split; [done|]. by eapply post_start. }
  clear IH. simpl.
  set (st0 := next_value loop value st).
  assert (Hinv0 : inv st0) by (destruct Hinv; by split).
  destruct (is_valid_total st empty_var value Hinv Hr) as [valid Hvalid].
  change (sol_array st0) with (sol_array st). rewrite Hvalid. simpl.
  destruct valid; [|by apply IH'].
  pose proof (is_valid_true _ _ _ Hinv Hr Hvalid) as Hfree.
  destruct (grid_store_is_Some (sol_array st) empty_var (Some value))
    as [a1 Ha1]; [apply Hinv|done|].
  rewrite Ha1. simpl.
  set (st1 := set_sol_array a1 st0).
  assert (Hpd1 : peers_differ a1).
  { eapply peers_differ_store; [apply Hinv|apply Hinv|exact Hfree|exact Ha1]. }
  assert (Hshape1 : shape9 a1).
  { eapply grid_store_shape; [apply Hinv|exact Ha1]. }
  assert (Hassigned1 : forall var v, grid_lookup a1 var = Some (Some v) ->
            exists s0, ov0 !! var = Some s0 /\ v ∈ s0).
  { intros var v Hv. destruct (decide (empty_var = var)) as [<-|Hne].
    - rewrite (grid_lookup_store_eq _ _ _ _ Ha1) in Hv. injection Hv as <-.
      apply Hvals. apply list_elem_of_here.
    - rewrite (grid_lookup_store_ne _ _ _ _ _ Ha1 Hne) in Hv.
      by apply Hinv. }
  destruct (forward_check_total empty_var value members
              (members_of 9 empty_var) (order_values st))
    as [[ov2 ok] Hfc]; [by apply members_ok| |].
  { apply Forall_forall. intros m Hm. apply Hinv.
    by eapply members_of_range. }
  change (order_values (set_sol_array a1 st0)) with (order_values st).
  rewrite Hfc. simpl.
  destruct (forward_check_shrinks _ _ _ _ _ _ Hfc) as [Hdom2 Hsub2].
  set (st2 := set_order_values ov2 st1).
  assert (Hinv2 : inv st2).
  { split; simpl.
    - done.
    - intros var Hvar. apply elem_of_dom. rewrite Hdom2.
      apply elem_of_dom. by apply Hinv.
    - intros var s2 Hs2. destruct (Hsub2 _ _ Hs2) as (s & Hs & Hsub).
      destruct (inv_shrink _ Hinv _ _ Hs) as (s0 & Hs0 & Hsub0).
      exists s0. split; [done|]. set_solver.
    - done.
    - done.
    - repeat constructor; try done. apply Hinv. }
  assert (Hn2 : (unassigned (sol_array st2) < n)%nat).
  { simpl. pose proof (unassigned_store _ _ _ _ Hr Hnone Ha1). lia. }
  assert (Hcall : exists st3 solution,
            (if ok then rec st2 else Ok (st2, None)) = Ok (st3, solution) /\
            post st2 st3 solution).
  { destruct ok; [by apply Hrec|].
    exists st2, None. split; [done|]. split; try done. }
  destruct Hcall as (st3 & solution & Hcall & Hpost3).
  rewrite Hcall. simpl.
  destruct solution as [ref|].
  - exists st3, (Some ref). split; [done|].
    destruct Hpost3 as [Hi3 Hs3 Hd3 Hn3 Hsm3]. split; try done.
    by rewrite Hd3.
  - destruct Hpost3 as [Hi3 Hs3 Hd3 Hn3 _].
    destruct (Hn3 eq_refl) as [Ha3 Ho3]. simpl in Ha3, Ho3, Hs3.
    rewrite Ha3, Ho3, (update_snapshot _ _ Hdom2).
    destruct (grid_store_is_Some a1 empty_var None) as [a5 Ha5]; [done|done|].
    rewrite Ha5. simpl.
    assert (a5 = sol_array st) as ->.
    { eapply grid_store_undo; [exact Hnone|exact Ha1|exact Ha5]. }
    apply IH'; simpl; try done.
    destruct Hinv. split; simpl; try done.
    apply Forall_cons. split; [done|].
    apply Forall_cons. split; [by rewrite Ha3|apply Hi3].
Qed.

(** With enough fuel the search returns, and the store it returns
    satisfies [post]. *)
Lemma depth_first_search_post fuel st :
  inv st -> (unassigned (sol_array st) < fuel)%nat ->
  exists st' r,
    depth_first_search ord members (all_variables 9) fuel st = Ok (st', r) /\
    post st st' r.
Proof.
  revert st. induction fuel as [|fuel IH]; intros st Hinv Hfuel; [lia|].
  simpl. case_decide as Hnone.
  - destruct (get_empty_var_spec (sol_array st) (order_values st))
      as (var & Hvar & Hr & Hlk & _); [apply Hinv|apply Hinv|done|].
    rewrite Hvar. simpl.
    destruct (inv_keys _ Hinv _ Hr) as [s Hs]. rewrite Hs. simpl.
    destruct (search_values_post (depth_first_search ord members (all_variables 9) fuel)
                (loops st) var (set_iter ord (loops st) s) fuel (next_loop st))
      as (st' & r & Hrun & Hpost); try done.
    + destruct Hinv. by split.
    + simpl. lia.
    + intros v Hv. rewrite (set_iter_perm ord) in Hv.
      apply elem_of_elements in Hv.
      destruct (inv_shrink _ Hinv _ _ Hs) as (s0 & Hs0 & Hsub).
      exists s0. split; [done|]. set_solver.
    + exists st', r. split; [done|].
      by apply (post_start st (next_loop st)).
  - exists st, (Some ref_sol_array). split; [done|].
    split; try done. intros ref Href. by injection Href as <-.
Qed.
End search_correct.

(** ** More fuel does not change a result *)

(** Take the first step of a computation that returns, and replay it in
    the goal. *)
Ltac replay H x Hx :=
  apply bind_Ok in H; destruct H as (x & Hx & H); rewrite Hx; simpl.

Lemma search_values_mono members rec1 rec2 loop empty_var values st res :
  (forall st1 r1, rec1 st1 = Ok r1 -> rec2 st1 = Ok r1) ->
  search_values members rec1 loop empty_var values st = Ok res ->
  search_values members rec2 loop empty_var values st = Ok res.
Proof.
  intros Hrec. revert st. induction values as [|value values IH]; intros st H.
  { done. }
  simpl in *. replay H valid Hvalid.
  destruct valid; [|by apply IH].
  replay H a1 Ha1. replay H fc Hfc. destruct fc as [ov2 ok].
  apply bind_Ok in H. destruct H as ([st3 solution] & Hcall & H).
  assert (Hcall2 : (if ok then rec2 (set_order_values ov2
                      (set_sol_array a1 (next_value loop value st)))
                    else Ok (set_order_values ov2
                      (set_sol_array a1 (next_value loop value st)), None))
                   = Ok (st3, solution)).
  { destruct ok; [by apply Hrec|done]. }
  rewrite Hcall2. simpl. destruct solution as [ref|]; [done|].
  replay H a5 Ha5. by apply IH.
Qed.

Lemma depth_first_search_mono ord members variables fuel fuel' st res :
  (fuel <= fuel')%nat ->
  depth_first_search ord members variables fuel st = Ok res ->
  depth_first_search ord members variables fuel' st = Ok res.
Proof.
  revert fuel' st res. induction fuel as [|fuel IH]; intros fuel' st res Hle H.
  { done. }
  destruct fuel' as [|fuel']; [lia|]. simpl in *.
  case_decide; [|done].
  replay H var Hvar. replay H s Hs.
  eapply search_values_mono; [|exact H].
  intros st1 r1. apply IH. lia.
Qed.

Lemma sudoku_solver_mono ord fuel fuel' sudoku res :
  (fuel <= fuel')%nat ->
  sudoku_solver ord fuel sudoku = Ok res ->
  sudoku_solver ord fuel' sudoku = Ok res.
Proof.
  intros Hle H. unfold sudoku_solver in *.
  replay H ov Hov. replay H ms Hms.
  apply bind_Ok in H. destruct H as ([st solution] & Hrun & H).
  rewrite (depth_first_search_mono _ _ _ _ _ _ _ Hle Hrun). done.
Qed.

(** ** The caller's array *)

Lemma search_values_frame members rec loop empty_var values st st' r :
  (forall st1 st1' r1, rec st1 = Ok (st1', r1) ->
     sudoku st1' = sudoku st1 /\ r1 <> Some ref_sudoku) ->
  search_values members rec loop empty_var values st = Ok (st', r) ->
  sudoku st' = sudoku st /\ r <> Some ref_sudoku.
Proof.
  intros Hrec. revert st. induction values as [|value values IH]; intros st H.
  { simpl in H. by inv_ok. }
  simpl in H. apply bind_Ok in H. destruct H as (valid & _ & H).
  destruct valid; [|by apply IH in H].
  apply bind_Ok in H. destruct H as (a1 & _ & H).
  apply bind_Ok in H. destruct H as ([ov2 ok] & _ & H).
  apply bind_Ok in H. destruct H as ([st3 solution] & Hcall & H).
  assert (Hst3 : sudoku st3 = sudoku st /\ solution <> Some ref_sudoku).
  { destruct ok; [by apply Hrec in Hcall|by inv_ok]. }
  destruct Hst3 as [Hs3 Hr3].
  destruct solution as [ref|]; [by inv_ok|].
  apply bind_Ok in H. destruct H as (a5 & _ & H).
  apply IH in H. simpl in H. by rewrite <- Hs3.
Qed.

Lemma depth_first_search_frame ord members variables fuel st st' r :
  depth_first_search ord members variables fuel st = Ok (st', r) ->
  sudoku st' = sudoku st /\ r <> Some ref_sudoku.
Proof.
  revert st st' r. induction fuel as [|fuel IH]; intros st st' r H; [done|].
  simpl in H. case_decide; [|by inv_ok].
  apply bind_Ok in H. destruct H as (var & _ & H).
  apply bind_Ok in H. destruct H as (s & _ & H).
  by apply (search_values_frame _ _ _ _ _ _ _ _ IH) in H.
Qed.

(** ** The whole run *)

(** The array returned when the search fails. *)
Definition sentinel : list (list (option Z)) := np_full (option Z) (Some (-1)).

Lemma np_full_lookup {A : Type} (x y : A) var :
  grid_lookup (np_full A x) var = Some y -> y = x.
Proof.
  unfold grid_lookup, np_full. intros H.
  destruct (replicate 9 (replicate 9 x) !! var.1) as [row|] eqn:Hrow;
    simpl in H; [|done].
  apply lookup_replicate in Hrow as [-> _].
  by apply lookup_replicate in H as [-> _].
Qed.

Lemma np_full_shape {A : Type} (x : A) : shape9 (np_full A x).
Proof. split; [done|]. unfold np_full. by apply Forall_replicate. Qed.

(** The candidate sets [populate_order_values] builds for [sudoku]. *)
Definition initial_order_values (sudoku : list (list Z))
    (ov0 : gmap cell (gset Z)) : Prop :=
  forall var, ov0 !! var =
    if decide (in_range var) then initial_values <$> grid_lookup sudoku var
    else None.

(** On a well-formed input and with fuel for 81 nested calls, the run
    returns: either the search failed and the result is a new array, or
    the result is [sol_array], without [None]. *)
Lemma sudoku_solver_run ord fuel sudoku :
  well_formed sudoku -> (82 <= fuel)%nat ->
  exists ov0 st r,
    sudoku_solver ord fuel sudoku = Ok (st, r) /\
    initial_order_values sudoku ov0 /\
    inv ov0 st /\
    (r = ret_new sentinel \/
     (r = ret_ref ref_sol_array /\ None ∉ mjoin (sol_array st))).
Proof.
  intros [[Hlen Hrows] Hent] Hfuel.
  assert (Hshape : shape9 sudoku) by done.
  unfold sudoku_solver. rewrite Hlen.
  destruct (populate_order_values_spec sudoku (all_variables 9) ∅)
    as (ov0 & Hov0 & Hlk0).
  { apply Forall_forall. intros var Hvar.
    apply grid_lookup_is_Some; [done|]. by apply in_range_variables. }
  destruct (lookup_lt_is_Some_2 sudoku 0) as [row0 Hrow0]; [lia|].
  assert (Hlen0 : length row0 = 9%nat).
  { rewrite Forall_lookup in Hrows. by apply (Hrows _ _ Hrow0). }
  destruct (populate_members_spec sudoku row0 (all_variables 9) ∅ Hrow0)
    as (ms & Hms & Hlkm).
  rewrite Hlen0 in Hlkm.
  rewrite Hov0, Hms. simpl.
  assert (Hinit : initial_order_values sudoku ov0).
  { intros var. rewrite Hlk0. destruct (decide (in_range var)) as [Hr|Hr].
    - rewrite decide_True; [done|]. by apply in_range_variables.
    - rewrite decide_False; [done|]. by rewrite <- in_range_variables. }
  set (st0 := {| sudoku := sudoku; sol_array := np_full (option Z) None;
                 order_values := ov0; loops := 0;
                 trace := [np_full (option Z) None]; tried := [] |}).
  assert (Hpd0 : peers_differ (np_full (option Z) None)).
  { intros c1 c2 v1 v2 _ H1 _. by apply np_full_lookup in H1. }
  assert (Hinv0 : inv ov0 st0).
  { split; simpl.
    - apply np_full_shape.
    - intros var Hr. rewrite Hinit, decide_True by done.
      apply fmap_is_Some. by apply grid_lookup_is_Some.
    - intros var s Hs. exists s. by split.
    - intros var v Hv. by apply np_full_lookup in Hv.
    - done.
    - by apply Forall_singleton. }
  destruct (depth_first_search_post ord ms ov0) with (fuel := fuel) (st := st0)
    as (st & r & Hrun & Hpost).
  { intros var Hr. rewrite Hlkm, decide_True; [done|].
    by apply in_range_variables. }
  { done. }
  { pose proof (unassigned_bound (sol_array st0)). lia. }
  rewrite Hrun. simpl. destruct Hpost as [Hinv _ _ _ Hsome].
  destruct r as [ref|].
  - destruct (Hsome ref eq_refl) as [-> Hfull].
    exists ov0, st, (ret_ref ref_sol_array).
    split; [done|]. split; [done|]. split; [done|]. by right.
  - exists ov0, st, (ret_new sentinel).
    split; [done|]. split; [done|]. split; [done|]. by left.
Qed.

Lemma sudoku_solver_result ord fuel sudoku st r :
  well_formed sudoku ->
  sudoku_solver ord fuel sudoku = Ok (st, r) ->
  exists ov0,
    initial_order_values sudoku ov0 /\
    inv ov0 st /\
    (r = ret_new sentinel \/
     (r = ret_ref ref_sol_array /\ None ∉ mjoin (sol_array st))).
Proof.
  intros Hwf Hrun.
  apply (sudoku_solver_mono _ _ (fuel `max` 82)) in Hrun; [|lia].
  destruct (sudoku_solver_run ord (fuel `max` 82) sudoku Hwf)
    as (ov0 & st' & r' & Hrun' & Hinit & Hinv & Hr); [lia|].
  rewrite Hrun in Hrun'. injection Hrun' as <- <-.
  exists ov0. split; [done|]. by split.
Qed.

(** ** Solved grids *)

Definition row_cells (i : nat) : list cell := (fun j => (i, j)) <$> seq 0 9.
Definition col_cells (j : nat) : list cell := (fun i => (i, j)) <$> seq 0 9.
Definition box_cells (b : nat) : list cell :=
  i ← seq (3 * (b / 3)) 3; j ← seq (3 * (b `mod` 3)) 3; [(i, j)].

(** The number of cells of [u] that hold [v]. *)
Definition occurrences (a : list (list (option Z))) (u : list cell) (v : Z) : nat :=
  length (filter (fun var => grid_lookup a var = Some (Some v)) u).

(** A 9x9 array of values in 1..9 in which every row, column and box
    holds each value exactly once. *)
Definition solved (a : list (list (option Z))) : Prop :=
  shape9 a /\
  (forall var, in_range var ->
     exists v, grid_lookup a var = Some (Some v) /\ 1 <= v <= 9) /\
  (forall i v, (i < 9)%nat -> 1 <= v <= 9 ->
     occurrences a (row_cells i) v = 1%nat /\
     occurrences a (col_cells i) v = 1%nat /\
     occurrences a (box_cells i) v = 1%nat).

(** The output keeps the entries of the input that are not blank. *)
Definition extends (sudoku : list (list Z)) (a : list (list (option Z))) : Prop :=
  forall var x, grid_lookup sudoku var = Some x -> x <> 0 ->
    grid_lookup a var = Some (Some x).

(** A row, column or box: nine cells of the board, any two of them peers. *)
Definition is_unit (u : list cell) : Prop :=
  NoDup u /\ length u = 9%nat /\ Forall in_range u /\
  Forall (fun c1 => Forall (fun c2 => c1 = c2 \/ peer c1 c2) u) u.

#[global] Instance is_unit_dec u : Decision (is_unit u).
Proof. unfold is_unit. apply _. Defined.

Lemma units_checked :
  Forall (fun i => is_unit (row_cells i) /\ is_unit (col_cells i) /\
                   is_unit (box_cells i)) (seq 0 9).
Proof. apply (bool_decide_unpack _). vm_compute. exact I. Qed.

Lemma filter_unique {A : Type} (P : A -> Prop) `{!forall x, Decision (P x)}
    (l : list A) (x : A) :
  NoDup l -> x ∈ l -> P x -> (forall y, y ∈ l -> P y -> y = x) ->
  filter P l = [x].
Proof.
  induction 1 as [|y l Hy Hl IH]; intros Hx HP Huniq.
  { by apply not_elem_of_nil in Hx. }
  rewrite filter_cons. apply elem_of_cons in Hx as [->|Hx].
  - rewrite decide_True by done. f_equal.
    apply elem_of_nil_inv. intros z Hz.
    apply list_elem_of_filter in Hz as [Hz1 Hz2].
    assert (z = y) as -> by (apply Huniq; [by apply list_elem_of_further|done]).
    done.
  - rewrite decide_False.
    + apply IH; [done|done|]. intros z Hz. apply Huniq.
      by apply list_elem_of_further.
    + intros HPy. assert (y = x) as ->
        by (apply Huniq; [apply list_elem_of_here|done]).
      done.
Qed.

Lemma unit_once (a : list (list (option Z))) (u : list cell) (v : Z) :
  shape9 a -> None ∉ mjoin a -> peers_differ a ->
  (forall var w, grid_lookup a var = Some (Some w) -> 1 <= w <= 9) ->
  is_unit u -> 1 <= v <= 9 ->
  occurrences a u v = 1%nat.
Proof.
  intros Hshape Hfull Hpd Hval (Hnd & Hlen & Hr & Hpeers) Hv.
  rewrite Forall_forall in Hr.
  set (entry := fun var => default 0 (default None (grid_lookup a var))).
  assert (Hentry : forall c, c ∈ u -> grid_lookup a c = Some (Some (entry c))).
  { intros c Hc.
    destruct (grid_lookup_is_Some a c Hshape (Hr _ Hc)) as [x Hx].
    unfold entry. rewrite Hx. destruct x as [w|]; [done|].
    exfalso. apply Hfull. apply elem_of_join_grid. eauto. }
  assert (Hinj : forall c1 c2, c1 ∈ u -> c2 ∈ u -> entry c1 = entry c2 -> c1 = c2).
  { intros c1 c2 H1 H2 Heq. destruct (decide (c1 = c2)) as [|Hne]; [done|].
    exfalso. rewrite Forall_forall in Hpeers.
    specialize (Hpeers _ H1). rewrite Forall_forall in Hpeers.
    destruct (Hpeers _ H2) as [|Hp]; [done|].
    by apply (Hpd c1 c2 (entry c1) (entry c2) Hp); [apply Hentry|apply Hentry|]. }
  assert (Hperm : entry <$> u ≡ₚ seqZ 1 9).
  { apply submseteq_length_Permutation.
    - apply NoDup_submseteq; [by apply NoDup_fmap_2_strong|].
      intros x Hx. apply list_elem_of_fmap in Hx as (c & -> & Hc).
      apply elem_of_seqZ. pose proof (Hval _ _ (Hentry _ Hc)). lia.
    - rewrite length_fmap, length_seqZ, Hlen. done. }
  assert (Hin : v ∈ entry <$> u).
  { rewrite Hperm. apply elem_of_seqZ. lia. }
  apply list_elem_of_fmap in Hin as (c & -> & Hc).
  unfold occurrences. rewrite (filter_unique _ u c); [done|done|done|by apply Hentry|].
  intros c' Hc' Heq. apply Hinj; [done|done|].
  rewrite (Hentry _ Hc') in Heq. congruence.
Qed.

Lemma full_consistent_solved (a : list (list (option Z))) :
  shape9 a -> None ∉ mjoin a -> peers_differ a ->
  (forall var w, grid_lookup a var = Some (Some w) -> 1 <= w <= 9) ->
  solved a.
Proof.
  intros Hshape Hfull Hpd Hval. split; [done|]. split.
  - intros var Hr. destruct (grid_lookup_is_Some a var Hshape Hr) as [x Hx].
    destruct x as [w|].
    + exists w. split; [done|]. by eapply Hval.
    + exfalso. apply Hfull. apply elem_of_join_grid. eauto.
  - intros i v Hi Hv. pose proof units_checked as Hu.
    rewrite Forall_forall in Hu.
    destruct (Hu i) as (H1 & H2 & H3); [apply elem_of_seq; lia|].
    split; [|split]; by apply unit_once.
Qed.

(** The candidates of a cell of a well-formed input are values in 1..9. *)
Lemma initial_values_range sudoku ov0 var s0 v :
  well_formed sudoku -> initial_order_values sudoku ov0 ->
  ov0 !! var = Some s0 -> v ∈ s0 -> 1 <= v <= 9.
Proof.
  intros Hwf Hinit Hs0 Hv. rewrite Hinit in Hs0.
  case_decide; [|done].
  destruct (grid_lookup sudoku var) as [x|] eqn:Hx; simpl in Hs0; [|done].
  injection Hs0 as <-. pose proof (well_formed_entry _ _ _ Hwf Hx).
  unfold initial_values in Hv. case_decide.
  - apply elem_of_list_to_set, elem_of_seqZ in Hv. lia.
  - apply elem_of_singleton in Hv. lia.
Qed.

(** The returned array is the sentinel or a solved grid that extends the
    input. *)
Lemma solve_result ord fuel sudoku out :
  well_formed sudoku ->
  solve ord fuel sudoku = Ok out ->
  out = sentinel \/ (solved out /\ extends sudoku out).
Proof.
  intros Hwf H. unfold solve in H.
  apply bind_Ok in H. destruct H as ([st r] & Hrun & H). inv_ok.
  destruct (sudoku_solver_result _ _ _ _ _ Hwf Hrun)
    as (ov0 & Hinit & Hinv & [->|[-> Hfull]]); [by left|].
  right. simpl.
  assert (Hval : forall var w, grid_lookup (sol_array st) var = Some (Some w) ->
            1 <= w <= 9).
  { intros var w Hw. destruct (inv_assigned _ _ Hinv _ _ Hw) as (s0 & Hs0 & Hin).
    by eapply initial_values_range. }
  assert (Hsolved : solved (sol_array st)).
  { apply full_consistent_solved; [apply Hinv|done|apply Hinv|done]. }
  split; [done|].
  intros var x Hx Hx0.
  assert (Hr : in_range var) by (eapply grid_lookup_Some_range; [apply Hwf|done]).
  destruct Hsolved as (_ & Hent & _).
  destruct (Hent var Hr) as (v & Hv & _). rewrite Hv.
  destruct (inv_assigned _ _ Hinv _ _ Hv) as (s0 & Hs0 & Hin).
  rewrite Hinit, decide_True, Hx in Hs0 by done. simpl in Hs0.
  injection Hs0 as <-. unfold initial_values in Hin.
  rewrite decide_False in Hin by done.
  apply elem_of_singleton in Hin as ->. done.
Qed.

(** * The claims *)

(** ** Sample inputs *)

Definition puzzle : list (list Z) :=
  [ [5;3;0;0;7;0;0;0;0];
    [6;0;0;1;9;5;0;0;0];
    [0;9;8;0;0;0;0;6;0];
    [8;0;0;0;6;0;0;0;3];
    [4;0;0;8;0;3;0;0;1];
    [7;0;0;0;2;0;0;0;6];
    [0;6;0;0;0;0;2;8;0];
    [0;0;0;4;1;9;0;0;5];
    [0;0;0;0;8;0;0;7;9] ].

Definition puzzle_solution : list (list (option Z)) :=
  map (map Some)
  [ [5;3;4;6;7;8;9;1;2];
    [6;7;2;1;9;5;3;4;8];
    [1;9;8;3;4;2;5;6;7];
    [8;5;9;7;6;1;4;2;3];
    [4;2;6;8;5;3;7;9;1];
    [7;1;3;9;2;4;8;5;6];
    [9;6;1;5;3;7;2;8;4];
    [2;8;7;4;1;9;6;3;5];
    [3;4;5;2;8;6;1;7;9] ].

(** Two 5s in the first row, every other cell blank. *)
Definition two_fives : list (list Z) :=
  [5;5;0;0;0;0;0;0;0] :: replicate 8 (replicate 9 0).

(** The first three cells of the first row can only take 8 or 9. *)
Definition three_cells : list (list Z) :=
  [0;0;0;1;2;3;4;5;6] :: [7;0;0;0;0;0;0;0;0] :: replicate 7 (replicate 9 0).

Example solve_puzzle : solve ascending 82 puzzle = Ok puzzle_solution.
Proof. vm_compute. reflexivity. Qed.

Example solve_two_fives : solve ascending 82 two_fives = Ok sentinel.
Proof. vm_compute. reflexivity. Qed.

Example solve_three_cells : solve descending 82 three_cells = Ok sentinel.
Proof. vm_compute. reflexivity. Qed.

(** ** C1 *)

(** C1. For every 9x9 input with entries in 0..9: if [sudoku_solver]
    returns an array other than the all-(-1) sentinel, every entry of that
    array is in 1..9 and each row, column and 3x3 box holds each of 1..9
    exactly once. *)
Theorem sudoku_solver_sound ord fuel sudoku out :
  well_formed sudoku ->
  solve ord fuel sudoku = Ok out ->
  out <> sentinel ->
  solved out.
Proof.
  intros Hwf Hrun Hne.
  destruct (solve_result _ _ _ _ Hwf Hrun) as [?|[? _]]; done.
Qed.

Lemma sudoku_solver_sound_witness :
  well_formed puzzle /\
  solve ascending 82 puzzle = Ok puzzle_solution /\
  puzzle_solution <> sentinel /\
  solved puzzle_solution.
Proof.
  assert (H1 : well_formed puzzle) by (apply (bool_decide_unpack _); vm_compute; exact I).
  assert (H2 : solve ascending 82 puzzle = Ok puzzle_solution)
    by (vm_compute; reflexivity).
  assert (H3 : puzzle_solution <> sentinel) by discriminate.
  split; [exact H1|]. split; [exact H2|]. split; [exact H3|].
  exact (sudoku_solver_sound ascending 82 puzzle puzzle_solution H1 H2 H3).
Defined.

(** ** C2 *)

Lemma solved_row_distinct a i j1 j2 x :
  solved a -> j1 <> j2 ->
  grid_lookup a (i, j1) = Some (Some x) ->
  grid_lookup a (i, j2) = Some (Some x) ->
  False.
Proof.
  intros (Hshape & Hent & Hunits) Hne H1 H2.
  pose proof (grid_lookup_Some_range _ _ _ Hshape H1) as [Hi Hj1].
  pose proof (grid_lookup_Some_range _ _ _ Hshape H2) as [_ Hj2].
  simpl in *.
  destruct (Hent (i, j1)) as (v & Hv & Hrange); [done|].
  assert (v = x) as -> by congruence.
  destruct (Hunits i x Hi Hrange) as (Hrow & _). unfold occurrences in Hrow.
  assert (Hin : forall j, (j < 9)%nat -> grid_lookup a (i, j) = Some (Some x) ->
            (i, j) ∈ filter (fun var => grid_lookup a var = Some (Some x)) (row_cells i)).
  { intros j Hj Hlk. apply list_elem_of_filter. split; [done|].
    unfold row_cells. apply list_elem_of_fmap. exists j. split; [done|].
    apply elem_of_seq. lia. }
  pose proof (Hin j1 Hj1 H1) as Hin1. pose proof (Hin j2 Hj2 H2) as Hin2.
  destruct (filter _ (row_cells i)) as [|c [|c' l]]; simpl in Hrow; try done.
  apply list_elem_of_singleton in Hin1, Hin2. congruence.
Qed.

(** C2. For every 9x9 input with entries in 0..9 that no solved grid
    extends -- in particular an input with the same non-zero value twice
    in a row -- [sudoku_solver] returns the array whose every entry is -1;
    and the output is always that array or a solved grid, never a
    partially filled one. *)
Theorem sudoku_solver_unsolvable ord fuel sudoku :
  well_formed sudoku -> (82 <= fuel)%nat ->
  ((~ exists a, solved a /\ extends sudoku a) ->
   solve ord fuel sudoku = Ok sentinel) /\
  ((exists i j1 j2 x, j1 <> j2 /\ x <> 0 /\
      grid_lookup sudoku (i, j1) = Some x /\
      grid_lookup sudoku (i, j2) = Some x) ->
   solve ord fuel sudoku = Ok sentinel) /\
  (exists out, solve ord fuel sudoku = Ok out /\ (out = sentinel \/ solved out)).
Proof.
  intros Hwf Hfuel.
  destruct (sudoku_solver_run ord fuel sudoku Hwf Hfuel)
    as (ov0 & st & r & Hrun & _).
  assert (Hsolve : solve ord fuel sudoku = Ok (array_of st r)).
  { unfold solve. by rewrite Hrun. }
  destruct (solve_result _ _ _ _ Hwf Hsolve) as [Hout|[Hsolved Hext]].
  - rewrite Hout in Hsolve. split; [done|]. split; [done|].
    exists sentinel. split; [done|]. by left.
  - split; [|split].
    + intros Hno. exfalso. apply Hno. eauto.
    + intros (i & j1 & j2 & x & Hne & Hx & H1 & H2). exfalso.
      eapply (solved_row_distinct _ i j1 j2 x); [done|done| |]; by apply Hext.
    + exists (array_of st r). split; [done|]. by right.
Qed.

Lemma sudoku_solver_unsolvable_witness :
  well_formed two_fives /\ (82 <= 82)%nat /\
  solve ascending 82 two_fives = Ok sentinel.
Proof.
  assert (H1 : well_formed two_fives)
    by (apply (bool_decide_unpack _); vm_compute; exact I).
  assert (H2 : (82 <= 82)%nat) by lia.
  split; [exact H1|]. split; [exact H2|].
  apply (proj1 (proj2 (sudoku_solver_unsolvable ascending 82 two_fives H1 H2))).
  exists 0%nat, 0%nat, 1%nat, 5. repeat split; done.
Defined.

(** ** C3 *)

(** C3. For every 9x9 input with entries in 0..9: if [sudoku_solver]
    returns a solved grid (not the sentinel), the output holds, at every
    cell whose input entry is not zero, the input entry. *)
Theorem sudoku_solver_keeps_input ord fuel sudoku out :
  well_formed sudoku ->
  solve ord fuel sudoku = Ok out ->
  out <> sentinel ->
  forall var x, grid_lookup sudoku var = Some x -> x <> 0 ->
    grid_lookup out var = Some (Some x).
Proof.
  intros Hwf Hrun Hne.
  destruct (solve_result _ _ _ _ Hwf Hrun) as [?|[_ Hext]]; done.
Qed.

Lemma sudoku_solver_keeps_input_witness :
  well_formed puzzle /\
  solve ascending 82 puzzle = Ok puzzle_solution /\
  puzzle_solution <> sentinel /\
  grid_lookup puzzle (2%nat, 7%nat) = Some 6 /\ 6 <> 0 /\
  grid_lookup puzzle_solution (2%nat, 7%nat) = Some (Some 6).
Proof.
  assert (H1 : well_formed puzzle) by (apply (bool_decide_unpack _); vm_compute; exact I).
  assert (H2 : solve ascending 82 puzzle = Ok puzzle_solution)
    by (vm_compute; reflexivity).
  assert (H3 : puzzle_solution <> sentinel) by discriminate.
  assert (H4 : grid_lookup puzzle (2%nat, 7%nat) = Some 6) by reflexivity.
  assert (H5 : 6 <> 0) by lia.
  split; [exact H1|]. split; [exact H2|]. split; [exact H3|].
  split; [exact H4|]. split; [exact H5|].
  exact (sudoku_solver_keeps_input ascending 82 puzzle puzzle_solution H1 H2 H3
           (2%nat, 7%nat) 6 H4 H5).
Defined.

(** ** C4 *)

(** C4. For every 9x9 input with entries in 0..9, [sudoku_solver] returns
    an array and raises no exception: with fuel for the 81 nested calls
    that [depth_first_search] can make, the run ends in [Ok], with the same
    array whatever the fuel beyond that. *)
Theorem sudoku_solver_terminates ord sudoku :
  well_formed sudoku ->
  exists out, forall fuel, (82 <= fuel)%nat -> solve ord fuel sudoku = Ok out.
Proof.
  intros Hwf.
  destruct (sudoku_solver_run ord 82 sudoku Hwf) as (ov0 & st & r & Hrun & _); [lia|].
  exists (array_of st r). intros fuel Hfuel. unfold solve.
  by rewrite (sudoku_solver_mono _ _ _ _ _ Hfuel Hrun).
Qed.

Lemma sudoku_solver_terminates_witness :
  well_formed two_fives /\
  exists out, forall fuel, (82 <= fuel)%nat -> solve descending fuel two_fives = Ok out.
Proof.
  assert (H1 : well_formed two_fives)
    by (apply (bool_decide_unpack _); vm_compute; exact I).
  split; [exact H1|].
  exact (sudoku_solver_terminates descending two_fives H1).
Defined.

(** ** C5 *)

(** C5. At every state the search goes through -- after every tentative
    assignment, after every forward check and after every restoration --
    two distinct cells that are peers and are both assigned in [sol_array]
    hold different values. *)
Theorem search_keeps_peers_apart ord fuel sudoku st r :
  well_formed sudoku ->
  sudoku_solver ord fuel sudoku = Ok (st, r) ->
  forall a, a ∈ trace st ->
  forall c1 c2 v1 v2, c1 <> c2 -> peer c1 c2 ->
    grid_lookup a c1 = Some (Some v1) -> grid_lookup a c2 = Some (Some v2) ->
    v1 <> v2.
Proof.
  intros Hwf Hrun a Ha c1 c2 v1 v2 _ Hp H1 H2.
  destruct (sudoku_solver_result _ _ _ _ _ Hwf Hrun) as (ov0 & _ & Hinv & _).
  pose proof (inv_trace _ _ Hinv) as Htr. rewrite Forall_forall in Htr.
  by apply (Htr a Ha c1 c2).
Qed.

(** The store and the result of a run that returned. *)
Definition run_store {R : Type} (o : outcome (store * R)) : store :=
  match o with
  | Ok (st, _) => st
  | _ => {| sudoku := []; sol_array := []; order_values := ∅; loops := 0;
            trace := []; tried := [] |}
  end.

Definition run_returned (o : outcome (store * returned)) : returned :=
  match o with
  | Ok (_, r) => r
  | _ => ret_new []
  end.

Lemma search_keeps_peers_apart_witness :
  well_formed puzzle /\
  sudoku_solver ascending 82 puzzle =
    Ok (run_store (sudoku_solver ascending 82 puzzle),
        run_returned (sudoku_solver ascending 82 puzzle)) /\
  puzzle_solution ∈ trace (run_store (sudoku_solver ascending 82 puzzle)) /\
  (0%nat, 0%nat) <> (0%nat, 1%nat) /\
  peer (0%nat, 0%nat) (0%nat, 1%nat) /\
  grid_lookup puzzle_solution (0%nat, 0%nat) = Some (Some 5) /\
  grid_lookup puzzle_solution (0%nat, 1%nat) = Some (Some 3) /\
  5 <> 3.
Proof.
  assert (H1 : well_formed puzzle) by (apply (bool_decide_unpack _); vm_compute; exact I).
  assert (H2 : sudoku_solver ascending 82 puzzle =
    Ok (run_store (sudoku_solver ascending 82 puzzle),
        run_returned (sudoku_solver ascending 82 puzzle)))
    by (vm_compute; reflexivity).
  assert (H3 : puzzle_solution ∈ trace (run_store (sudoku_solver ascending 82 puzzle)))
    by (apply (bool_decide_unpack _); vm_compute; exact I).
  assert (H4 : (0%nat, 0%nat) <> (0%nat, 1%nat) :> cell) by discriminate.
  assert (H5 : peer (0%nat, 0%nat) (0%nat, 1%nat))
    by (apply (bool_decide_unpack _); vm_compute; exact I).
  assert (H6 : grid_lookup puzzle_solution (0%nat, 0%nat) = Some (Some 5)) by reflexivity.
  assert (H7 : grid_lookup puzzle_solution (0%nat, 1%nat) = Some (Some 3)) by reflexivity.
  repeat (split; [assumption|]).
  exact (search_keeps_peers_apart ascending 82 puzzle _ _ H1 H2 _ H3 _ _ _ _ H4 H5 H6 H7).
Defined.

(** ** C6 *)

(** C6. Called with at least one unassigned cell, [get_empty_var] returns
    an unassigned cell whose candidate set is the smallest among the
    unassigned cells, and of the cells with a set of that size the first
    one in row-major order. *)
Theorem get_empty_var_minimum_remaining_values sol ov :
  shape9 sol ->
  Forall (fun var => is_Some (ov !! var)) (all_variables 9) ->
  None ∈ mjoin sol ->
  exists var,
    get_empty_var sol ov (all_variables 9) = Ok var /\
    in_range var /\ grid_lookup sol var = Some None /\
    forall var', in_range var' -> grid_lookup sol var' = Some None ->
      (size (candidates ov var) <= size (candidates ov var'))%nat /\
      (size (candidates ov var') = size (candidates ov var) ->
       var = var' \/ row_major_lt var var').
Proof.
  intros Hshape Hkeys Hnone. apply get_empty_var_spec; [done| |done].
  intros var Hr. rewrite Forall_forall in Hkeys. apply Hkeys.
  by apply in_range_variables.
Qed.

(** The candidate sets and the members of a board, as the setup builds
    them. *)
Definition setup_order_values (sudoku : list (list Z)) : gmap cell (gset Z) :=
  match populate_order_values sudoku (all_variables (length sudoku)) ∅ with
  | Ok ov => ov
  | _ => ∅
  end.

Definition setup_members (sudoku : list (list Z)) : gmap cell (list cell) :=
  match populate_members sudoku (all_variables (length sudoku)) ∅ with
  | Ok ms => ms
  | _ => ∅
  end.

Example get_empty_var_three_cells :
  get_empty_var (np_full (option Z) None) (setup_order_values three_cells)
    (all_variables 9) = Ok (0%nat, 3%nat).
Proof. vm_compute. reflexivity. Qed.

Lemma get_empty_var_minimum_remaining_values_witness :
  shape9 (np_full (option Z) None) /\
  Forall (fun var => is_Some (setup_order_values three_cells !! var)) (all_variables 9) /\
  None ∈ mjoin (np_full (option Z) None) /\
  exists var,
    get_empty_var (np_full (option Z) None) (setup_order_values three_cells)
      (all_variables 9) = Ok var /\
    in_range var /\ grid_lookup (np_full (option Z) None) var = Some None /\
    forall var', in_range var' ->
      grid_lookup (np_full (option Z) None) var' = Some None ->
      (size (candidates (setup_order_values three_cells) var) <=
       size (candidates (setup_order_values three_cells) var'))%nat /\
      (size (candidates (setup_order_values three_cells) var') =
       size (candidates (setup_order_values three_cells) var) ->
       var = var' \/ row_major_lt var var').
Proof.
  assert (H1 : shape9 (np_full (option Z) None))
    by (apply (bool_decide_unpack _); vm_compute; exact I).
  assert (H2 : Forall (fun var => is_Some (setup_order_values three_cells !! var))
                 (all_variables 9))
    by (apply (bool_decide_unpack _); vm_compute; exact I).
  assert (H3 : None ∈ mjoin (np_full (option Z) None))
    by (apply (bool_decide_unpack _); vm_compute; exact I).
  split; [exact H1|]. split; [exact H2|]. split; [exact H3|].
  exact (get_empty_var_minimum_remaining_values _ _ H1 H2 H3).
Defined.

(** ** C7 *)

(** C7. If [forward_check] returns [False], [order_values] is on return
    what it was before the call.  If it returns [True], [order_values]
    differs from its state before the call by [value] having been removed
    from the candidate set of every member of [var], and the set of every
    member that held [value] is not empty afterwards. *)
Theorem forward_check_spec var value members ov ov' ok :
  forward_check var value members ov = Ok (ov', ok) ->
  (ok = false -> ov' = ov) /\
  (ok = true ->
   exists ms, members !! var = Some ms /\
     (forall c, ov' !! c =
        if decide (c ∈ ms) then (fun s => s ∖ {[ value ]}) <$> ov !! c
        else ov !! c) /\
     (forall m s, m ∈ ms -> ov !! m = Some s -> value ∈ s ->
        exists s', ov' !! m = Some s' /\ s' <> ∅)).
Proof.
  intros H. split; intros ->.
  - by eapply forward_check_false.
  - by apply forward_check_true.
Qed.

Example forward_check_dead_end :
  forward_check (0%nat, 0%nat) 7 (setup_members three_cells)
    (setup_order_values three_cells) = Ok (setup_order_values three_cells, false).
Proof. vm_compute. reflexivity. Qed.

Example forward_check_prunes :
  match forward_check (0%nat, 0%nat) 8 (setup_members three_cells)
          (setup_order_values three_cells) with
  | Ok (ov', ok) =>
      ok = true /\
      candidates ov' (0%nat, 1%nat) = list_to_set [1; 2; 3; 4; 5; 6; 7; 9] /\
      candidates ov' (5%nat, 5%nat) = list_to_set (seqZ 1 9)
  | _ => False
  end.
Proof. vm_compute. repeat split. Qed.

Lemma forward_check_spec_witness :
  forward_check (0%nat, 0%nat) 7 (setup_members three_cells)
    (setup_order_values three_cells) = Ok (setup_order_values three_cells, false) /\
  (false = false -> setup_order_values three_cells = setup_order_values three_cells) /\
  (false = true ->
   exists ms, setup_members three_cells !! (0%nat, 0%nat) = Some ms /\
     (forall c, setup_order_values three_cells !! c =
        if decide (c ∈ ms)
        then (fun s => s ∖ {[ 7 ]}) <$> setup_order_values three_cells !! c
        else setup_order_values three_cells !! c) /\
     (forall m s, m ∈ ms -> setup_order_values three_cells !! m = Some s -> 7 ∈ s ->
        exists s', setup_order_values three_cells !! m = Some s' /\ s' <> ∅)).
Proof.
  assert (H1 : forward_check (0%nat, 0%nat) 7 (setup_members three_cells)
                 (setup_order_values three_cells)
               = Ok (setup_order_values three_cells, false))
    by (vm_compute; reflexivity).
  split; [exact H1|].
  exact (forward_check_spec _ _ _ _ _ _ H1).
Defined.

(** ** C8 *)

(** C8 as stated: the list recorded for a cell lists its 20 peers, each
    once. *)
Definition records_peers_once (sudoku : list (list Z)) (var : cell) : Prop :=
  exists ms l,
    populate_members sudoku (all_variables (length sudoku)) ∅ = Ok ms /\
    ms !! var = Some l /\
    NoDup l /\ length l = 20%nat /\
    forall x, x ∈ l <-> in_range x /\ peer var x.

Example members_top_left :
  setup_members (np_full Z 0) !! (0%nat, 0%nat) =
  Some [ (0,1); (0,2); (0,3); (0,4); (0,5); (0,6); (0,7); (0,8);
         (1,0); (2,0); (3,0); (4,0); (5,0); (6,0); (7,0); (8,0);
         (0,1); (0,2); (1,0); (1,1); (1,2); (2,0); (2,1); (2,2) ]%nat.
Proof. vm_compute. reflexivity. Qed.

(** The list recorded for the top left cell has 24 entries: the two other
    cells of its row and the two other cells of its column that lie in its
    box are recorded twice. *)
Lemma populate_members_records_twice :
  ~ records_peers_once (np_full Z 0) (0%nat, 0%nat).
Proof.
  intros (ms & l & Hms & Hl & _ & Hlen & _).
  assert (Hsetup : setup_members (np_full Z 0) = ms).
  { unfold setup_members. by rewrite Hms. }
  subst ms. pose proof (eq_trans (eq_sym Hl) members_top_left) as Heq.
  injection Heq as ->. discriminate Hlen.
Qed.

(** The number of times the cell [x] occurs in the list [l]. *)
Definition recorded (x : cell) (l : list cell) : nat :=
  length (filter (fun y => y = x) l).

(** The number of times the three loops of [populate_members] append [x]
    to the list of [var]: twice when [x] is a peer that lies in the box of
    [var] and also in its row or its column (the row or column loop
    appends it, and the box loop appends it again), once for any other
    peer, and never otherwise. *)
Definition times_appended (var x : cell) : nat :=
  if decide (in_range x /\ peer var x)
  then if decide (same_box var x /\ (var.1 = x.1 \/ var.2 = x.2)) then 2 else 1
  else 0.

Lemma members_of_records_checked :
  Forall (fun var =>
            Forall (fun x => recorded x (members_of 9 var) = times_appended var x)
              (all_variables 9) /\
            length (filter (fun x => recorded x (members_of 9 var) = 2%nat)
                      (all_variables 9)) = 4%nat)
         (all_variables 9).
Proof. apply (bool_decide_unpack _). vm_compute. exact I. Qed.

(** C8, amended.  For every cell of the board, the list [populate_members]
    records has 24 entries; the cells it lists are exactly the 20 peers of
    the cell (the other cells of its row, column and box), the cell itself
    is not among them, and there are 20 distinct ones.  The peers that lie
    in the box of the cell and also in its row or its column are recorded
    twice, every other peer once: four cells of the board are recorded
    twice. *)
Theorem populate_members_peers sudoku var :
  shape9 sudoku -> in_range var ->
  exists ms l,
    populate_members sudoku (all_variables (length sudoku)) ∅ = Ok ms /\
    ms !! var = Some l /\
    (forall x, x ∈ l <-> in_range x /\ peer var x) /\
    (var ∉ l) /\
    length l = 24%nat /\
    size (list_to_set (C := gset cell) l) = 20%nat /\
    (forall x, recorded x l = times_appended var x) /\
    length (filter (fun x => recorded x l = 2%nat) (all_variables 9)) = 4%nat.
Proof.
  intros [Hlen Hrows] Hr. rewrite Hlen.
  destruct (lookup_lt_is_Some_2 sudoku 0) as [row0 Hrow0]; [lia|].
  assert (Hlen0 : length row0 = 9%nat).
  { rewrite Forall_lookup in Hrows. by apply (Hrows _ _ Hrow0). }
  destruct (populate_members_spec sudoku row0 (all_variables 9) ∅ Hrow0)
    as (ms & Hms & Hlk).
  exists ms, (members_of 9 var). split; [done|]. split.
  { rewrite Hlk, decide_True, Hlen0; [done|]. by apply in_range_variables. }
  split; [intros x; by apply members_of_peer|].
  pose proof members_of_checked as H. rewrite Forall_forall in H.
  destruct (H var) as (_ & _ & H24 & H20); [by apply in_range_variables|].
  split.
  { intros Hin. apply members_of_peer in Hin as [_ [Hne _]]; done. }
  split; [done|]. split; [done|].
  pose proof members_of_records_checked as Hrec. rewrite Forall_forall in Hrec.
  destruct (Hrec var) as (Hcount & Hfour); [by apply in_range_variables|].
  split; [|done].
  intros x. destruct (decide (in_range x)) as [Hx|Hx].
  - rewrite Forall_forall in Hcount. apply Hcount. by apply in_range_variables.
  - unfold times_appended. rewrite decide_False by tauto.
    unfold recorded. rewrite (elem_of_nil_inv (filter _ _)); [done|].
    intros y Hy. apply list_elem_of_filter in Hy as [-> Hy].
    apply Hx. by apply (members_of_range var).
Qed.

Lemma populate_members_peers_witness :
  shape9 puzzle /\ in_range (4%nat, 4%nat) /\
  exists ms l,
    populate_members puzzle (all_variables (length puzzle)) ∅ = Ok ms /\
    ms !! (4%nat, 4%nat) = Some l /\
    (forall x, x ∈ l <-> in_range x /\ peer (4%nat, 4%nat) x) /\
    ((4%nat, 4%nat) ∉ l) /\
    length l = 24%nat /\
    size (list_to_set (C := gset cell) l) = 20%nat /\
    (forall x, recorded x l = times_appended (4%nat, 4%nat) x) /\
    length (filter (fun x => recorded x l = 2%nat) (all_variables 9)) = 4%nat.
Proof.
  assert (H1 : shape9 puzzle) by (apply (bool_decide_unpack _); vm_compute; exact I).
  assert (H2 : in_range (4%nat, 4%nat)) by (split; simpl; lia).
  split; [exact H1|]. split; [exact H2|].
  exact (populate_members_peers puzzle (4%nat, 4%nat) H1 H2).
Defined.

Example recorded_top_left :
  filter (fun x => recorded x (members_of 9 (0%nat, 0%nat)) = 2%nat) (all_variables 9)
  = [(0, 1); (0, 2); (1, 0); (2, 0)]%nat.
Proof. vm_compute. reflexivity. Qed.

(** ** C10 *)

(** C10. [sudoku_solver] does not write to its input: the caller's array
    holds after the call what it held before, the array returned is not
    the caller's array but one that the call created, and the contents of
    the returned array depend on the input only. *)
Theorem sudoku_solver_preserves_input ord fuel input st r :
  sudoku_solver ord fuel input = Ok (st, r) ->
  sudoku st = input /\
  r <> ret_ref ref_sudoku /\
  forall fuel' st' r', sudoku_solver ord fuel' input = Ok (st', r') ->
    array_of st' r' = array_of st r.
Proof.
  intros Hrun. split; [|split].
  - unfold sudoku_solver in Hrun.
    apply bind_Ok in Hrun. destruct Hrun as (ov & _ & Hrun).
    apply bind_Ok in Hrun. destruct Hrun as (ms & _ & Hrun).
    apply bind_Ok in Hrun. destruct Hrun as ([st1 solution] & Hdfs & Hrun).
    apply depth_first_search_frame in Hdfs as [Hs _]. simpl in Hs.
    destruct solution; inv_ok; done.
  - unfold sudoku_solver in Hrun.
    apply bind_Ok in Hrun. destruct Hrun as (ov & _ & Hrun).
    apply bind_Ok in Hrun. destruct Hrun as (ms & _ & Hrun).
    apply bind_Ok in Hrun. destruct Hrun as ([st1 solution] & Hdfs & Hrun).
    apply depth_first_search_frame in Hdfs as [_ Hr].
    destruct solution as [ref|]; inv_ok; [|done].
    intros Heq. apply Hr. congruence.
  - intros fuel' st' r' Hrun'.
    apply (sudoku_solver_mono _ _ (fuel `max` fuel')) in Hrun; [|lia].
    apply (sudoku_solver_mono _ _ (fuel `max` fuel')) in Hrun'; [|lia].
    rewrite Hrun in Hrun'. by injection Hrun' as <- <-.
Qed.

Lemma sudoku_solver_preserves_input_witness :
  sudoku_solver ascending 82 puzzle =
    Ok (run_store (sudoku_solver ascending 82 puzzle),
        run_returned (sudoku_solver ascending 82 puzzle)) /\
  sudoku (run_store (sudoku_solver ascending 82 puzzle)) = puzzle /\
  run_returned (sudoku_solver ascending 82 puzzle) <> ret_ref ref_sudoku.
Proof.
  assert (H1 : sudoku_solver ascending 82 puzzle =
    Ok (run_store (sudoku_solver ascending 82 puzzle),
        run_returned (sudoku_solver ascending 82 puzzle)))
    by (vm_compute; reflexivity).
  split; [exact H1|].
  pose proof (sudoku_solver_preserves_input ascending 82 puzzle _ _ H1) as (H2 & H3 & _).
  split; [exact H2|exact H3].
Defined.

(** ** C9 *)

(** The values that the loop number [k] gave to its variable, in the
    order of the iterations. *)
Definition tried_by (k : nat) (st : store) : list Z :=
  snd <$> reverse (filter (fun e => e.1 = k) (tried st)).

(** C9 as stated: whatever the order in which the set type iterates, every
    loop of the search visits its values in ascending order. *)
Definition tries_in_ascending_order : Prop :=
  forall ord fuel sudoku st r,
    well_formed sudoku ->
    sudoku_solver ord fuel sudoku = Ok (st, r) ->
    forall k, StronglySorted Z.lt (tried_by k st).

Example tried_three_cells :
  tried_by 7 (run_store (sudoku_solver descending 82 three_cells)) = [9; 8].
Proof. vm_compute. reflexivity. Qed.

(** On [three_cells], when the set type iterates in descending order, the
    loop of the top left cell tries 9 before 8. *)
Lemma search_follows_set_order : ~ tries_in_ascending_order.
Proof.
  intros H.
  specialize (H descending 82%nat three_cells
                (run_store (sudoku_solver descending 82 three_cells))
                (run_returned (sudoku_solver descending 82 three_cells))).
  assert (Hwf : well_formed three_cells)
    by (apply (bool_decide_unpack _); vm_compute; exact I).
  assert (Hrun : sudoku_solver descending 82 three_cells =
    Ok (run_store (sudoku_solver descending 82 three_cells),
        run_returned (sudoku_solver descending 82 three_cells)))
    by (vm_compute; reflexivity).
  specialize (H Hwf Hrun 7%nat). rewrite tried_three_cells in H.
  apply StronglySorted_cons in H as [H _].
  apply Forall_cons in H as [H _]. lia.
Qed.

(** What a call adds to the log of tried values: entries of loops that
    start during the call. *)
Definition logs_new_loops (st st' : store) : Prop :=
  (loops st <= loops st')%nat /\
  exists new, tried st' = new ++ tried st /\
    Forall (fun e => (loops st <= e.1)%nat) new.

Lemma tried_by_app k (new old : list (nat * Z)) :
  snd <$> reverse (filter (fun e => e.1 = k) (new ++ old)) =
  (snd <$> reverse (filter (fun e => e.1 = k) old)) ++
  (snd <$> reverse (filter (fun e => e.1 = k) new)).
Proof. by rewrite filter_app, reverse_app, fmap_app. Qed.

Lemma tried_by_later k (new : list (nat * Z)) :
  Forall (fun e => (k < e.1)%nat) new ->
  filter (fun e => e.1 = k) new = [].
Proof.
  intros H. apply elem_of_nil_inv. intros e He.
  apply list_elem_of_filter in He as [He1 He2].
  rewrite Forall_forall in H. specialize (H _ He2). lia.
Qed.

Lemma search_values_log members rec loop empty_var values st st' r :
  (forall st1 st1' r1, rec st1 = Ok (st1', r1) -> logs_new_loops st1 st1') ->
  (loop < loops st)%nat ->
  search_values members rec loop empty_var values st = Ok (st', r) ->
  (loops st <= loops st')%nat /\
  exists new visited rest,
    tried st' = new ++ tried st /\
    Forall (fun e => e.1 = loop \/ (loops st <= e.1)%nat) new /\
    values = visited ++ rest /\
    snd <$> reverse (filter (fun e => e.1 = loop) new) = visited /\
    (r = None -> rest = []).
Proof.
  intros Hrec. revert st. induction values as [|value values IH]; intros st Hk H.
  { simpl in H. inv_ok. split; [done|]. exists [], [], []. by repeat split. }
  simpl in H. apply bind_Ok in H. destruct H as (valid & _ & H).
  assert (Hnext : forall st5, (loops st <= loops st5)%nat ->
            (exists mid, tried st5 = mid ++ (loop, value) :: tried st /\
                         Forall (fun e => (loops st <= e.1)%nat) mid) ->
            search_values members rec loop empty_var values st5 = Ok (st', r) ->
            (loops st <= loops st')%nat /\
            exists new visited rest,
              tried st' = new ++ tried st /\
              Forall (fun e => e.1 = loop \/ (loops st <= e.1)%nat) new /\
              value :: values = visited ++ rest /\
              snd <$> reverse (filter (fun e => e.1 = loop) new) = visited /\
              (r = None -> rest = [])).
  { intros st5 Hle (mid & Hmid & Hfresh) Hrun.
    apply IH in Hrun as (Hle' & new & visited & rest & Hnew & Hall & Hvals & Hvis & Hr);
      [|lia].
    split; [lia|].
    exists (new ++ mid ++ [(loop, value)]), (value :: visited), rest.
    split; [by rewrite Hnew, Hmid, <- !app_assoc|].
    split.
    { rewrite !Forall_app. split; [|split].
      - eapply Forall_impl; [exact Hall|]. intros e [?|?]; [by left|right; lia].
      - eapply Forall_impl; [exact Hfresh|]. intros e ?. by right.
      - apply Forall_singleton. by left. }
    split; [by rewrite Hvals|]. split; [|done].
    rewrite !tried_by_app. rewrite (tried_by_later loop mid).
    - rewrite filter_cons, decide_True by done. simpl. by rewrite Hvis.
    - eapply Forall_impl; [exact Hfresh|]. intros e ?. simpl in *. lia. }
  destruct valid.
  - apply bind_Ok in H. destruct H as (a1 & _ & H).
    apply bind_Ok in H. destruct H as ([ov2 ok] & _ & H).
    apply bind_Ok in H. destruct H as ([st3 solution] & Hcall & H).
    assert (Hlog : logs_new_loops
                     (set_order_values ov2 (set_sol_array a1 (next_value loop value st)))
                     st3).
    { destruct ok; [by eapply Hrec|]. inv_ok. split; [done|].
      exists []. by split. }
    destruct Hlog as (Hle3 & mid & Hmid & Hfresh). simpl in Hle3, Hmid, Hfresh.
    destruct solution as [ref|].
    + inv_ok. split; [done|].
      exists (mid ++ [(loop, value)]), [value], values.
      split; [by rewrite Hmid, <- app_assoc|]. split.
      { rewrite Forall_app. split.
        - eapply Forall_impl; [exact Hfresh|]. intros e ?. by right.
        - apply Forall_singleton. by left. }
      split; [done|]. split; [|done].
      rewrite tried_by_app, (tried_by_later loop mid).
      * by rewrite filter_cons, decide_True.
      * eapply Forall_impl; [exact Hfresh|]. intros e ?. simpl in *. lia.
    + apply bind_Ok in H. destruct H as (a5 & _ & H).
      refine (Hnext _ _ _ H); simpl; [done|]. by exists mid.
  - refine (Hnext _ _ _ H); simpl; [done|]. exists []. by split.
Qed.

Lemma depth_first_search_log ord members variables fuel st st' r :
  depth_first_search ord members variables fuel st = Ok (st', r) ->
  logs_new_loops st st'.
Proof.
  revert st st' r. induction fuel as [|fuel IH]; intros st st' r H; [done|].
  simpl in H. case_decide.
  - apply bind_Ok in H. destruct H as (var & _ & H).
    apply bind_Ok in H. destruct H as (s & _ & H).
    apply (search_values_log _ _ _ _ _ _ _ _ IH) in H
      as (Hle & new & _ & _ & Hnew & Hall & _); [|simpl; lia].
    simpl in *. split; [lia|]. exists new. split; [done|].
    eapply Forall_impl; [exact Hall|]. intros e [?|?]; lia.
  - inv_ok. split; [done|]. exists []. by split.
Qed.

(** C9, amended.  At every branching point the loop visits the candidate
    values of the selected cell in the order in which the set type
    iterates over the candidate set as it is when the loop starts: a call
    that branches on the cell [var] with the candidate set [s] tries, in
    that order, the first values of [set_iter ord (loops st) s], and all
    of them when it returns [None].  The order is ascending when the set
    type iterates in ascending order. *)
Theorem search_tries_in_set_order ord members variables fuel st st' r var s :
  None ∈ mjoin (sol_array st) ->
  get_empty_var (sol_array st) (order_values st) variables = Ok var ->
  order_values st !! var = Some s ->
  Forall (fun e => (e.1 < loops st)%nat) (tried st) ->
  depth_first_search ord members variables (S fuel) st = Ok (st', r) ->
  tried_by (loops st) st' `prefix_of` set_iter ord (loops st) s /\
  (r = None -> tried_by (loops st) st' = set_iter ord (loops st) s) /\
  (StronglySorted Z.lt (set_iter ord (loops st) s) ->
   StronglySorted Z.lt (tried_by (loops st) st')).
Proof.
  intros Hnone Hvar Hs Hold H. simpl in H.
  rewrite decide_True in H by done. rewrite Hvar in H. simpl in H.
  rewrite Hs in H. simpl in H.
  apply (search_values_log _ _ _ _ _ _ _ _
           (depth_first_search_log ord members variables fuel)) in H
    as (_ & new & visited & rest & Hnew & _ & Hvals & Hvis & Hr); [|simpl; lia].
  simpl in Hnew.
  assert (Htried : tried_by (loops st) st' = visited).
  { unfold tried_by. rewrite Hnew, tried_by_app.
    rewrite (elem_of_nil_inv (filter _ (tried st))); [done|].
    intros e He. apply list_elem_of_filter in He as [He1 He2].
    rewrite Forall_forall in Hold. specialize (Hold _ He2). lia. }
  rewrite Htried, Hvals. split; [by exists rest|]. split.
  - intros Hnone'. rewrite (Hr Hnone'). by rewrite app_nil_r.
  - intros Hsorted. by apply StronglySorted_app in Hsorted as (_ & ? & _).
Qed.

(** The store on the first call of [depth_first_search]. *)
Definition first_store (input : list (list Z)) : store :=
  {| sudoku := input; sol_array := np_full (option Z) None;
     order_values := setup_order_values input; loops := 0;
     trace := [np_full (option Z) None]; tried := [] |}.

Definition blank : list (list Z) := np_full Z 0.

Lemma search_tries_in_set_order_witness :
  None ∈ mjoin (sol_array (first_store blank)) /\
  get_empty_var (sol_array (first_store blank)) (order_values (first_store blank))
    (all_variables 9) = Ok (0%nat, 0%nat) /\
  order_values (first_store blank) !! (0%nat, 0%nat) = Some (list_to_set (seqZ 1 9)) /\
  Forall (fun e => (e.1 < loops (first_store blank))%nat) (tried (first_store blank)) /\
  depth_first_search descending (setup_members blank) (all_variables 9) 82
    (first_store blank) =
  Ok (run_store (depth_first_search descending (setup_members blank)
                   (all_variables 9) 82 (first_store blank)),
      Some ref_sol_array) /\
  tried_by 0 (run_store (depth_first_search descending (setup_members blank)
                           (all_variables 9) 82 (first_store blank)))
    `prefix_of` set_iter descending 0 (list_to_set (seqZ 1 9)).
Proof.
  assert (H1 : None ∈ mjoin (sol_array (first_store blank)))
    by (apply (bool_decide_unpack _); vm_compute; exact I).
  assert (H2 : get_empty_var (sol_array (first_store blank))
                 (order_values (first_store blank)) (all_variables 9)
               = Ok (0%nat, 0%nat)) by (vm_compute; reflexivity).
  assert (H3 : order_values (first_store blank) !! (0%nat, 0%nat)
               = Some (list_to_set (seqZ 1 9))) by (vm_compute; reflexivity).
  assert (H4 : Forall (fun e => (e.1 < loops (first_store blank))%nat)
                 (tried (first_store blank))) by constructor.
  assert (H5 : depth_first_search descending (setup_members blank) (all_variables 9) 82
                 (first_store blank) =
               Ok (run_store (depth_first_search descending (setup_members blank)
                                (all_variables 9) 82 (first_store blank)),
                   Some ref_sol_array)) by (vm_compute; reflexivity).
  repeat (split; [assumption|]).
  exact (proj1 (search_tries_in_set_order descending (setup_members blank)
                  (all_variables 9) 81 (first_store blank) _ _ _ _ H1 H2 H3 H4 H5)).
Defined.

Example tried_blank :
  tried_by 0 (run_store (depth_first_search descending (setup_members blank)
                           (all_variables 9) 82 (first_store blank))) = [9] /\
  set_iter descending 0 (list_to_set (seqZ 1 9)) = [9; 8; 7; 6; 5; 4; 3; 2; 1].
Proof. vm_compute. split; reflexivity. Qed.

(** * Further properties of the solver *)

(** ** The first call of the search *)

Lemma setup_order_values_initial input :
  shape9 input -> initial_order_values input (setup_order_values input).
Proof.
  intros [Hlen Hrows]. unfold setup_order_values. rewrite Hlen.
  destruct (populate_order_values_spec input (all_variables 9) ∅)
    as (ov & -> & Hlk).
  { apply Forall_forall. intros var Hvar.
    apply grid_lookup_is_Some; [done|]. by apply in_range_variables. }
  intros var. rewrite Hlk. destruct (decide (in_range var)) as [Hr|Hr].
  - rewrite decide_True; [done|]. by apply in_range_variables.
  - rewrite decide_False; [done|]. by rewrite <- in_range_variables.
Qed.

Lemma setup_members_lookup input var :
  shape9 input -> in_range var ->
  setup_members input !! var = Some (members_of 9 var).
Proof.
  intros [Hlen Hrows] Hr. unfold setup_members. rewrite Hlen.
  destruct (lookup_lt_is_Some_2 input 0) as [row0 Hrow0]; [lia|].
  assert (Hlen0 : length row0 = 9%nat).
  { rewrite Forall_lookup in Hrows. by apply (Hrows _ _ Hrow0). }
  destruct (populate_members_spec input row0 (all_variables 9) ∅ Hrow0)
    as (ms & -> & Hlk).
  rewrite Hlk, decide_True, Hlen0; [done|]. by apply in_range_variables.
Qed.

(** On a 9x9 input the setup does not raise. *)
Lemma setup_order_values_eq input :
  shape9 input ->
  populate_order_values input (all_variables 9) ∅ = Ok (setup_order_values input).
Proof.
  intros [Hlen Hrows]. unfold setup_order_values. rewrite Hlen.
  destruct (populate_order_values_spec input (all_variables 9) ∅)
    as (ov & -> & _); [|done].
  apply Forall_forall. intros var Hvar.
  apply grid_lookup_is_Some; [done|]. by apply in_range_variables.
Qed.

Lemma setup_members_eq input :
  shape9 input ->
  populate_members input (all_variables 9) ∅ = Ok (setup_members input).
Proof.
  intros [Hlen Hrows]. unfold setup_members. rewrite Hlen.
  destruct (lookup_lt_is_Some_2 input 0) as [row0 Hrow0]; [lia|].
  by destruct (populate_members_spec input row0 (all_variables 9) ∅ Hrow0)
    as (ms & -> & _).
Qed.

(** On a 9x9 input [sudoku_solver] is the
    search from [first_store] followed by the choice of the result. *)
Lemma sudoku_solver_unfold ord fuel input :
  shape9 input ->
  sudoku_solver ord fuel input =
    '(st, solution) ← depth_first_search ord (setup_members input)
                        (all_variables 9) fuel (first_store input);
    match solution with
    | None => Ok (st, ret_new sentinel)
    | Some r => Ok (st, ret_ref r)
    end.
Proof.
  intros Hshape. pose proof Hshape as [Hlen Hrows].
  unfold sudoku_solver. rewrite Hlen.
  rewrite (setup_order_values_eq _ Hshape), (setup_members_eq _ Hshape).
  done.
Qed.

Lemma first_store_inv input :
  shape9 input -> inv (setup_order_values input) (first_store input).
Proof.
  intros Hshape. pose proof (setup_order_values_initial _ Hshape) as Hinit.
  split; simpl.
  - apply np_full_shape.
  - intros var Hr. rewrite Hinit, decide_True by done.
    apply fmap_is_Some. by apply grid_lookup_is_Some.
  - intros var s Hs. exists s. by split.
  - intros var v Hv. by apply np_full_lookup in Hv.
  - intros c1 c2 v1 v2 _ H1 _. by apply np_full_lookup in H1.
  - apply Forall_singleton. intros c1 c2 v1 v2 _ H1 _.
    by apply np_full_lookup in H1.
Qed.

(** The search from [first_store], with fuel for 81 nested calls. *)
Lemma first_search ord fuel input :
  shape9 input -> (82 <= fuel)%nat ->
  exists st r,
    depth_first_search ord (setup_members input) (all_variables 9) fuel
      (first_store input) = Ok (st, r) /\
    post (setup_order_values input) (first_store input) st r.
Proof.
  intros Hshape Hfuel.
  apply depth_first_search_post.
  - intros var Hr. by apply setup_members_lookup.
  - by apply first_store_inv.
  - pose proof (unassigned_bound (sol_array (first_store input))). lia.
Qed.

(** ** Completeness of the search *)

(** Two peers lie in a common row, column or box. *)
Lemma peers_share_unit :
  Forall (fun c1 => Forall (fun c2 => peer c1 c2 ->
            Exists (fun i => (c1 ∈ row_cells i /\ c2 ∈ row_cells i) \/
                             (c1 ∈ col_cells i /\ c2 ∈ col_cells i) \/
                             (c1 ∈ box_cells i /\ c2 ∈ box_cells i)) (seq 0 9))
          (all_variables 9)) (all_variables 9).
Proof. apply (bool_decide_unpack _). vm_compute. exact I. Qed.

Lemma occurrences_two a u c1 c2 v :
  c1 ∈ u -> c2 ∈ u -> c1 <> c2 ->
  grid_lookup a c1 = Some (Some v) -> grid_lookup a c2 = Some (Some v) ->
  occurrences a u v <> 1%nat.
Proof.
  intros H1 H2 Hne Hv1 Hv2 Hocc. unfold occurrences in Hocc.
  assert (Hin1 : c1 ∈ filter (fun var => grid_lookup a var = Some (Some v)) u)
    by (by apply list_elem_of_filter).
  assert (Hin2 : c2 ∈ filter (fun var => grid_lookup a var = Some (Some v)) u)
    by (by apply list_elem_of_filter).
  destruct (filter _ u) as [|c [|c' l]]; simpl in Hocc; try done.
  apply list_elem_of_singleton in Hin1, Hin2. congruence.
Qed.

Lemma solved_peers_differ a : solved a -> peers_differ a.
Proof.
  intros (Hshape & Hent & Hunits) c1 c2 v1 v2 Hp H1 H2 ->.
  pose proof (grid_lookup_Some_range _ _ _ Hshape H1) as Hr1.
  pose proof (grid_lookup_Some_range _ _ _ Hshape H2) as Hr2.
  destruct (Hent c1 Hr1) as (v & Hv & Hrange).
  assert (v = v2) as -> by congruence.
  pose proof peers_share_unit as Hu. rewrite Forall_forall in Hu.
  specialize (Hu c1 (proj1 (in_range_variables _) Hr1)).
  rewrite Forall_forall in Hu.
  specialize (Hu c2 (proj1 (in_range_variables _) Hr2) Hp).
  apply Exists_exists in Hu as (i & Hi & Hcase).
  apply elem_of_seq in Hi.
  destruct (Hunits i v2) as (Hrow & Hcol & Hbox); [lia|done|].
  destruct Hp as [Hne _].
  destruct Hcase as [[Hc1 Hc2]|[[Hc1 Hc2]|[Hc1 Hc2]]].
  - by apply (occurrences_two a (row_cells i) c1 c2 v2).
  - by apply (occurrences_two a (col_cells i) c1 c2 v2).
  - by apply (occurrences_two a (box_cells i) c1 c2 v2).
Qed.

Lemma is_valid_loop_false value ms sol :
  is_valid_loop value ms sol = Ok false ->
  exists m, m ∈ ms /\ grid_lookup sol m = Some (Some value).
Proof.
  induction ms as [|m0 ms IH]; simpl; intros H; [by inv_ok|].
  apply bind_Ok in H. destruct H as (x & Hx & H). apply or_raise_Ok in Hx.
  case_decide as Hv.
  - exists m0. split; [apply list_elem_of_here|congruence].
  - destruct (IH H) as (m & Hm & Hlk). exists m.
    split; [by apply list_elem_of_further|done].
Qed.

Lemma forward_check_loop_dead_end value ov0 ms ov changes ov' :
  discarded value ov0 ov changes ->
  forward_check_loop value ms ov changes = Ok (ov', false) ->
  exists m, m ∈ ms /\ ov0 !! m = Some {[ value ]}.
Proof.
  revert ov changes. induction ms as [|m ms IH]; simpl; intros ov changes Hd H.
  { by inv_ok. }
  apply bind_Ok in H. destruct H as (s & Hs & H). apply or_raise_Ok in Hs.
  case_decide as Hv.
  - apply bind_Ok in H. destruct H as (s1 & Hs1 & H). apply or_raise_Ok in Hs1.
    rewrite lookup_insert_eq in Hs1. injection Hs1 as <-.
    case_decide as Hsz.
    + exists m. split; [apply list_elem_of_here|].
      destruct Hd as [Hlk _]. rewrite Hlk in Hs.
      case_decide as Hc.
      * destruct (ov0 !! m) as [s0|]; simpl in Hs; [|done].
        injection Hs as <-. set_solver.
      * rewrite Hs. f_equal. apply size_empty_inv in Hsz.
        apply set_eq. intros x. rewrite elem_of_singleton. split.
        -- intros Hx. destruct (decide (x = value)) as [|Hne]; [done|].
           exfalso. set_solver.
        -- by intros ->.
    + destruct (IH _ _ (discarded_step _ _ _ _ _ _ Hd Hs Hv) H) as (m' & Hm' & Hlk').
      exists m'. split; [by apply list_elem_of_further|done].
  - destruct (IH _ _ Hd H) as (m' & Hm' & Hlk').
    exists m'. split; [by apply list_elem_of_further|done].
Qed.

Lemma forward_check_dead_end_member var value members ov ov' :
  forward_check var value members ov = Ok (ov', false) ->
  exists ms m, members !! var = Some ms /\ m ∈ ms /\ ov !! m = Some {[ value ]}.
Proof.
  unfold forward_check. intros H.
  apply bind_Ok in H. destruct H as (ms & Hms & H). apply or_raise_Ok in Hms.
  apply forward_check_loop_dead_end with (ov0 := ov) in H as (m & Hm & Hlk).
  - by exists ms, m.
  - split; [|by intros c Hc; apply not_elem_of_nil in Hc].
    intros c. rewrite decide_False; [done|]. apply not_elem_of_nil.
Qed.

(** The grid [a] is still within reach of the search: it agrees with
    [sol_array] on the assigned cells, and the value it gives to a cell is
    a candidate of that cell. *)
Definition compatible (a : list (list (option Z))) (st : store) : Prop :=
  (forall var v, grid_lookup (sol_array st) var = Some (Some v) ->
     grid_lookup a var = Some (Some v)) /\
  (forall var v, in_range var -> grid_lookup a var = Some (Some v) ->
     exists s, order_values st !! var = Some s /\ v ∈ s).

Section search_complete.
Context (members : gmap cell (list cell)).
Context (ov0 : gmap cell (gset Z)).
Hypothesis members_ok :
  forall var, in_range var -> members !! var = Some (members_of 9 var).
Context (a : list (list (option Z))).
Hypothesis a_solved : solved a.

(** The store after a tentative assignment and its forward check. *)
Lemma assign_inv st loop empty_var value a1 ov2 ok :
  inv ov0 st -> in_range empty_var ->
  grid_lookup (sol_array st) empty_var = Some None ->
  (exists s0, ov0 !! empty_var = Some s0 /\ value ∈ s0) ->
  is_valid empty_var value members (sol_array st) = Ok true ->
  grid_store (sol_array st) empty_var (Some value) = Some a1 ->
  forward_check empty_var value members (order_values st) = Ok (ov2, ok) ->
  inv ov0 (set_order_values ov2 (set_sol_array a1 (next_value loop value st))) /\
  (unassigned a1 < unassigned (sol_array st))%nat.
Proof.
  intros Hinv Hr Hnone Hval Hvalid Ha1 Hfc.
  pose proof (is_valid_true _ _ members_ok _ _ _ Hinv Hr Hvalid) as Hfree.
  destruct (forward_check_shrinks _ _ _ _ _ _ Hfc) as [Hdom2 Hsub2].
  assert (Hpd1 : peers_differ a1).
  { eapply peers_differ_store; [apply Hinv|apply Hinv|exact Hfree|exact Ha1]. }
  split; [|by eapply unassigned_store].
  split; simpl.
  - eapply grid_store_shape; [apply Hinv|exact Ha1].
  - intros var Hvar. apply elem_of_dom. rewrite Hdom2.
    apply elem_of_dom. by apply Hinv.
  - intros var s2 Hs2. destruct (Hsub2 _ _ Hs2) as (s & Hs & Hsub).
    destruct (inv_shrink _ _ Hinv _ _ Hs) as (s0 & Hs0 & Hsub0).
    exists s0. split; [done|]. set_solver.
  - intros var v Hv. destruct (decide (empty_var = var)) as [<-|Hne].
    + rewrite (grid_lookup_store_eq _ _ _ _ Ha1) in Hv. by injection Hv as <-.
    + rewrite (grid_lookup_store_ne _ _ _ _ _ Ha1 Hne) in Hv. by apply Hinv.
  - done.
  - apply Forall_cons. split; [done|]. apply Forall_cons. split; [done|].
    apply Hinv.
Qed.

(** The store after the restoring statements of a failed iteration. *)
Lemma restore_inv st st2 st3 empty_var value a1 a5 :
  inv ov0 st ->
  grid_lookup (sol_array st) empty_var = Some None ->
  grid_store (sol_array st) empty_var (Some value) = Some a1 ->
  sol_array st2 = a1 ->
  dom (order_values st2) = dom (order_values st) ->
  post ov0 st2 st3 None ->
  grid_store (sol_array st3) empty_var None = Some a5 ->
  inv ov0 (set_sol_array a5
             (set_order_values (order_values st ∪ order_values st3) st3)) /\
  a5 = sol_array st /\
  order_values st ∪ order_values st3 = order_values st.
Proof.
  intros Hinv Hnone Ha1 Hst2 Hdom2 [Hi3 Hs3 Hd3 Hn3 _] Ha5.
  destruct (Hn3 eq_refl) as [Ha3 Ho3].
  assert (Hupd : order_values st ∪ order_values st3 = order_values st).
  { apply update_snapshot. by rewrite Hd3. }
  assert (Heq : a5 = sol_array st).
  { rewrite Ha3, Hst2 in Ha5. eapply grid_store_undo; [exact Hnone|exact Ha1|exact Ha5]. }
  split; [|done]. subst a5. rewrite Hupd.
  destruct Hinv. split; simpl; try done.
  apply Forall_cons. split; [done|].
  apply Forall_cons. split; [apply Hi3|apply Hi3].
Qed.

Lemma compatible_assign st empty_var value a1 ov2 :
  in_range empty_var ->
  compatible a st ->
  grid_lookup a empty_var = Some (Some value) ->
  grid_store (sol_array st) empty_var (Some value) = Some a1 ->
  forward_check empty_var value members (order_values st) = Ok (ov2, true) ->
  forall st2, sol_array st2 = a1 -> order_values st2 = ov2 -> compatible a st2.
Proof.
  intros Hr [Hsol Hcand] Hav Ha1 Hfc st2 Hs2 Ho2.
  apply forward_check_true in Hfc as (ms & Hms & Hlk & _).
  rewrite (members_ok _ Hr) in Hms. injection Hms as <-.
  split.
  - rewrite Hs2. intros var v Hv. destruct (decide (empty_var = var)) as [<-|Hne].
    + rewrite (grid_lookup_store_eq _ _ _ _ Ha1) in Hv. congruence.
    + rewrite (grid_lookup_store_ne _ _ _ _ _ Ha1 Hne) in Hv. by apply Hsol.
  - rewrite Ho2. intros var v Hvar Hv.
    destruct (Hcand var v Hvar Hv) as (s & Hs & Hin).
    rewrite Hlk, Hs. case_decide as Hm; [|by eauto].
    simpl. exists (s ∖ {[ value ]}). split; [done|].
    apply members_of_peer in Hm as [_ Hp]; [|done].
    pose proof (solved_peers_differ _ a_solved _ _ _ _ Hp Hav Hv). set_solver.
Qed.

Lemma search_values_complete rec loop empty_var values n st st' r :
  (forall st1 st1' r1, inv ov0 st1 -> (unassigned (sol_array st1) < n)%nat ->
     rec st1 = Ok (st1', r1) ->
     post ov0 st1 st1' r1 /\ (compatible a st1 -> r1 <> None)) ->
  inv ov0 st -> in_range empty_var ->
  grid_lookup (sol_array st) empty_var = Some None ->
  (unassigned (sol_array st) <= n)%nat ->
  (forall v, v ∈ values -> exists s0, ov0 !! empty_var = Some s0 /\ v ∈ s0) ->
  compatible a st ->
  (exists v, grid_lookup a empty_var = Some (Some v) /\ v ∈ values) ->
  search_values members rec loop empty_var values st = Ok (st', r) ->
  r <> None.
Proof.
  intros Hrec. revert st.
  induction values as [|value values IH];
    intros st Hinv Hr Hnone Hn Hvals Hcomp (v & Hav & Hv) H.
  { by apply not_elem_of_nil in Hv. }
  assert (Hvals' : forall w, w ∈ values ->
            exists s0, ov0 !! empty_var = Some s0 /\ w ∈ s0).
  { intros w Hw. apply Hvals. by apply list_elem_of_further. }
  simpl in H. apply bind_Ok in H. destruct H as (valid & Hvalid & H).
  simpl in Hvalid.
  destruct valid.
  - apply bind_Ok in H. destruct H as (a1 & Ha1 & H). apply or_raise_Ok in Ha1.
    apply bind_Ok in H. destruct H as ([ov2 ok] & Hfc & H).
    simpl in Ha1, Hfc.
    apply bind_Ok in H. destruct H as ([st3 solution] & Hcall & H).
    destruct solution as [ref|]; [by inv_ok|].
    destruct (assign_inv st loop empty_var value a1 ov2 ok)
      as [Hinv2 Hlt]; try done.
    { apply Hvals. apply list_elem_of_here. }
    destruct (forward_check_shrinks _ _ _ _ _ _ Hfc) as [Hdom2 _].
    set (st2 := set_order_values ov2 (set_sol_array a1 (next_value loop value st))) in *.
    assert (Hpost3 : post ov0 st2 st3 None /\
                     (ok = true -> compatible a st2 -> False)).
    { destruct ok.
      - destruct (Hrec st2 st3 None Hinv2) as [Hp Hc]; [simpl; lia|done|].
        split; [done|]. intros _ Hc2. by apply Hc.
      - inv_ok. split; [|done]. split; try done. }
    destruct Hpost3 as [Hpost3 Hdead].
    apply bind_Ok in H. destruct H as (a5 & Ha5 & H). apply or_raise_Ok in Ha5.
    simpl in Ha5.
    destruct (restore_inv st st2 st3 empty_var value a1 a5)
      as (Hinv5 & -> & Hupd); try done.
    destruct (decide (value = v)) as [->|Hne].
    + exfalso. destruct ok.
      * apply Hdead; [done|].
        by apply (compatible_assign st empty_var v a1 ov2).
      * apply forward_check_dead_end_member in Hfc as (ms & m & Hms & Hm & Hlk).
        rewrite (members_ok _ Hr) in Hms. injection Hms as <-.
        apply members_of_peer in Hm as [Hrm Hp]; [|done].
        destruct a_solved as (_ & Hent & _).
        destruct (Hent m Hrm) as (w & Hw & _).
        destruct Hcomp as [_ Hcand].
        destruct (Hcand m w Hrm Hw) as (s & Hs & Hin).
        assert (w = v) as -> by set_solver.
        by apply (solved_peers_differ _ a_solved _ _ _ _ Hp Hav Hw).
    + refine (IH _ _ _ _ _ _ _ _ H); simpl; try done.
      * destruct Hcomp as [Hsol Hcand]. split; simpl; [done|].
        by rewrite Hupd.
      * exists v. split; [done|]. apply elem_of_cons in Hv as [?|?]; done.
  - destruct (decide (value = v)) as [->|Hne].
    + exfalso. unfold is_valid in Hvalid.
      rewrite (members_ok _ Hr) in Hvalid. simpl in Hvalid.
      apply is_valid_loop_false in Hvalid as (m & Hm & Hlk).
      apply members_of_peer in Hm as [Hrm Hp]; [|done].
      destruct Hcomp as [Hsol _]. apply Hsol in Hlk.
      by apply (solved_peers_differ _ a_solved _ _ _ _ Hp Hav Hlk).
    + refine (IH _ _ _ _ _ _ _ _ H); simpl; try done.
      * destruct Hinv. by split.
      * exists v. split; [done|]. apply elem_of_cons in Hv as [?|?]; done.
Qed.

Lemma depth_first_search_complete ord fuel st st' r :
  inv ov0 st -> (unassigned (sol_array st) < fuel)%nat ->
  compatible a st ->
  depth_first_search ord members (all_variables 9) fuel st = Ok (st', r) ->
  r <> None.
Proof.
  revert st st' r. induction fuel as [|fuel IH]; intros st st' r Hinv Hfuel Hcomp H.
  { lia. }
  simpl in H. case_decide as Hnone; [|by inv_ok].
  destruct (get_empty_var_spec (sol_array st) (order_values st))
    as (var & Hvar & Hr & Hlk & _); [apply Hinv|apply Hinv|done|].
  rewrite Hvar in H. simpl in H.
  destruct (inv_keys _ _ Hinv _ Hr) as [s Hs]. rewrite Hs in H. simpl in H.
  destruct a_solved as (_ & Hent & _).
  destruct (Hent var Hr) as (v & Hav & _).
  refine (search_values_complete _ _ _ _ fuel _ _ _ _ _ _ _ _ _ _ _ H);
    simpl; try done.
  - intros st1 st1' r1 Hinv1 Hn1 Hrun1.
    destruct (depth_first_search_post ord members ov0 members_ok fuel st1 Hinv1 Hn1)
      as (st1'' & r1' & Hrun1' & Hpost1).
    rewrite Hrun1 in Hrun1'. injection Hrun1' as <- <-.
    split; [done|]. intros Hc1. by eapply IH.
  - destruct Hinv. by split.
  - lia.
  - intros w Hw. rewrite (set_iter_perm ord) in Hw.
    apply elem_of_elements in Hw.
    destruct (inv_shrink _ _ Hinv _ _ Hs) as (s0 & Hs0 & Hsub).
    exists s0. split; [done|]. set_solver.
  - exists v. split; [done|]. rewrite (set_iter_perm ord).
    apply elem_of_elements. destruct Hcomp as [_ Hcand].
    destruct (Hcand var v Hr Hav) as (s' & Hs' & Hin). congruence.
Qed.
End search_complete.

(** ** Checking that a given grid is solved *)

(** [solved] and [extends] with their quantifiers bounded, so that they
    can be evaluated on a given grid. *)
Definition solved_check (a : list (list (option Z))) : Prop :=
  shape9 a /\
  Forall (fun var => Exists (fun v => grid_lookup a var = Some (Some v)) (seqZ 1 9))
    (all_variables 9) /\
  Forall (fun i => Forall (fun v =>
            occurrences a (row_cells i) v = 1%nat /\
            occurrences a (col_cells i) v = 1%nat /\
            occurrences a (box_cells i) v = 1%nat) (seqZ 1 9)) (seq 0 9).

#[global] Instance solved_check_dec a : Decision (solved_check a).
Proof. unfold solved_check. apply _. Defined.

Lemma solved_check_solved a : solved_check a -> solved a.
Proof.
  intros (Hshape & Hent & Hunits). split; [done|]. split.
  - intros var Hr. rewrite Forall_forall in Hent.
    specialize (Hent var (proj1 (in_range_variables _) Hr)).
    apply Exists_exists in Hent as (v & Hv & Hlk).
    exists v. split; [done|]. apply elem_of_seqZ in Hv. lia.
  - intros i v Hi Hv. rewrite Forall_forall in Hunits.
    specialize (Hunits i). rewrite Forall_forall in Hunits.
    apply Hunits; [apply elem_of_seq; lia|apply elem_of_seqZ; lia].
Qed.

Definition extends_check (input : list (list Z)) (a : list (list (option Z))) : Prop :=
  shape9 input /\
  Forall (fun var =>
            match grid_lookup input var with
            | Some x => x = 0 \/ grid_lookup a var = Some (Some x)
            | None => True
            end) (all_variables 9).

#[global] Instance extends_check_dec input a : Decision (extends_check input a).
Proof.
  unfold extends_check. apply and_dec; [apply _|].
  apply Forall_dec. intros var. destruct (grid_lookup input var); apply _.
Defined.

Lemma extends_check_extends input a : extends_check input a -> extends input a.
Proof.
  intros [Hshape Hall] var x Hx Hx0.
  pose proof (grid_lookup_Some_range _ _ _ Hshape Hx) as Hr.
  rewrite Forall_forall in Hall.
  specialize (Hall var (proj1 (in_range_variables _) Hr)).
  rewrite Hx in Hall. by destruct Hall.
Qed.

(** ** X1: a solvable puzzle is solved *)

Lemma compatible_first_store input a :
  well_formed input -> solved a -> extends input a ->
  compatible a (first_store input).
Proof.
  intros Hwf (Hshape & Hent & _) Hext. split; simpl.
  - intros var v Hv. by apply np_full_lookup in Hv.
  - intros var v Hr Hv.
    rewrite (setup_order_values_initial input (proj1 Hwf)), decide_True by done.
    destruct (grid_lookup_is_Some input var (proj1 Hwf) Hr) as [x Hx].
    rewrite Hx. simpl. eexists. split; [done|].
    unfold initial_values. case_decide as H0.
    + apply elem_of_list_to_set, elem_of_seqZ.
      destruct (Hent var Hr) as (w & Hw & Hrange).
      assert (w = v) by congruence. lia.
    + apply elem_of_singleton. pose proof (Hext var x Hx H0). congruence.
Qed.

Lemma solvable_is_solved ord fuel input a :
  well_formed input -> (82 <= fuel)%nat ->
  solved a -> extends input a ->
  exists out, solve ord fuel input = Ok out /\ solved out /\ extends input out.
Proof.
  intros Hwf Hfuel Ha Hext. pose proof Hwf as [Hshape _].
  destruct (first_search ord fuel input Hshape Hfuel) as (st & r & Hrun & Hpost).
  assert (Hmembers : forall var, in_range var ->
            setup_members input !! var = Some (members_of 9 var))
    by (intros var Hvar; by apply setup_members_lookup).
  assert (Hbound : (unassigned (sol_array (first_store input)) < fuel)%nat).
  { pose proof (unassigned_bound (sol_array (first_store input))). lia. }
  pose proof (depth_first_search_complete (setup_members input)
                (setup_order_values input) Hmembers a Ha ord fuel
                (first_store input) st r (first_store_inv _ Hshape) Hbound
                (compatible_first_store _ _ Hwf Ha Hext) Hrun) as Hr.
  destruct r as [ref|]; [|done].
  destruct (post_some _ _ _ _ Hpost ref eq_refl) as [-> Hfull].
  assert (Hsolve : solve ord fuel input = Ok (sol_array st)).
  { unfold solve. rewrite (sudoku_solver_unfold _ _ _ Hshape), Hrun. done. }
  exists (sol_array st). split; [done|].
  destruct (solve_result _ _ _ _ Hwf Hsolve) as [Hsent|?]; [|done].
  exfalso.
  assert (Hlk : grid_lookup (sol_array st) (0%nat, 0%nat) = Some (Some (-1)))
    by (by rewrite Hsent).
  destruct (inv_assigned _ _ (post_inv _ _ _ _ Hpost) _ _ Hlk) as (s0 & Hs0 & Hin).
  pose proof (initial_values_range _ _ _ _ _ Hwf
                (setup_order_values_initial _ Hshape) Hs0 Hin). lia.
Qed.

(** X1. If some solved grid extends the input, [sudoku_solver] does not
    return the sentinel: it returns a solved grid that extends the input
    (the first one the search reaches, which depends on the order in which
    sets are iterated when there are several). *)
Theorem sudoku_solver_complete ord fuel input a :
  well_formed input -> (82 <= fuel)%nat ->
  solved a -> extends input a ->
  exists out, solve ord fuel input = Ok out /\ solved out /\ extends input out.
Proof. apply solvable_is_solved. Qed.

Lemma sudoku_solver_complete_witness :
  well_formed puzzle /\ (82 <= 82)%nat /\
  solved puzzle_solution /\ extends puzzle puzzle_solution /\
  exists out, solve descending 82 puzzle = Ok out /\ solved out /\ extends puzzle out.
Proof.
  assert (H1 : well_formed puzzle) by (apply (bool_decide_unpack _); vm_compute; exact I).
  assert (H2 : (82 <= 82)%nat) by lia.
  assert (H3 : solved puzzle_solution).
  { apply solved_check_solved. apply (bool_decide_unpack _). vm_compute. exact I. }
  assert (H4 : extends puzzle puzzle_solution).
  { apply extends_check_extends. apply (bool_decide_unpack _). vm_compute. exact I. }
  repeat (split; [assumption|]).
  exact (sudoku_solver_complete descending 82 puzzle puzzle_solution H1 H2 H3 H4).
Defined.

(** ** X2: a solved grid is returned as it is *)

Lemma grid_lookup_map {A B : Type} (f : A -> B) (g : list (list A)) var :
  grid_lookup (map (map f) g) var = f <$> grid_lookup g var.
Proof.
  unfold grid_lookup.
  change (map (map f) g) with (fmap (M := list) (fmap (M := list) f) g).
  rewrite list_lookup_fmap. destruct (g !! var.1) as [row|]; simpl; [|done].
  apply list_lookup_fmap.
Qed.

Lemma grid_ext {A : Type} (a b : list (list A)) :
  shape9 a -> shape9 b ->
  (forall var, in_range var -> grid_lookup a var = grid_lookup b var) ->
  a = b.
Proof.
  intros [Hla Hra] [Hlb Hrb] Heq. apply list_eq. intros i.
  destruct (decide (i < 9)%nat) as [Hi|Hi].
  - destruct (lookup_lt_is_Some_2 a i) as [ra Hra']; [lia|].
    destruct (lookup_lt_is_Some_2 b i) as [rb Hrb']; [lia|].
    rewrite Hra', Hrb'. f_equal. apply list_eq. intros j.
    rewrite Forall_lookup in Hra, Hrb.
    destruct (decide (j < 9)%nat) as [Hj|Hj].
    + specialize (Heq (i, j) (conj Hi Hj)). unfold grid_lookup in Heq.
      simpl in Heq. by rewrite Hra', Hrb' in Heq.
    + rewrite !lookup_ge_None_2; [done| |].
      * rewrite (Hrb _ _ Hrb'). lia.
      * rewrite (Hra _ _ Hra'). lia.
  - rewrite !lookup_ge_None_2; [done|lia|lia].
Qed.

(** X2. Given a grid that is already solved (no blank), [sudoku_solver]
    returns that grid. *)
Theorem solved_input_returned ord fuel input :
  solved (map (map Some) input) -> (82 <= fuel)%nat ->
  solve ord fuel input = Ok (map (map Some) input).
Proof.
  intros Hsolved Hfuel. pose proof Hsolved as (Hshape & Hent & _).
  assert (Hshape' : shape9 input).
  { destruct Hshape as [Hlen Hrows]. rewrite length_map in Hlen. split; [done|].
    apply Forall_forall. intros row Hrow. rewrite Forall_forall in Hrows.
    specialize (Hrows (map Some row)). rewrite length_map in Hrows.
    apply Hrows. apply list_elem_of_In, in_map, list_elem_of_In. done. }
  assert (Hlk : forall var x, grid_lookup input var = Some x -> 1 <= x <= 9).
  { intros var x Hx.
    pose proof (grid_lookup_Some_range _ _ _ Hshape' Hx) as Hr.
    destruct (Hent var Hr) as (v & Hv & Hrange).
    rewrite grid_lookup_map, Hx in Hv. simpl in Hv. congruence. }
  assert (Hwf : well_formed input).
  { split; [done|]. apply Forall_forall. intros row Hrow.
    apply Forall_forall. intros x Hx.
    apply list_elem_of_lookup in Hrow as [i Hi].
    apply list_elem_of_lookup in Hx as [j Hj].
    assert (H : grid_lookup input (i, j) = Some x).
    { unfold grid_lookup. simpl. by rewrite Hi. }
    specialize (Hlk _ _ H). lia. }
  assert (Hext : extends input (map (map Some) input)).
  { intros var x Hx _. by rewrite grid_lookup_map, Hx. }
  destruct (solvable_is_solved ord fuel input _ Hwf Hfuel Hsolved Hext)
    as (out & Hrun & (Hso & _) & Hext').
  rewrite Hrun. f_equal. apply grid_ext; [done|done|].
  intros var Hr. destruct (grid_lookup_is_Some input var Hshape' Hr) as [x Hx].
  rewrite grid_lookup_map, Hx. simpl. apply Hext'; [done|].
  specialize (Hlk _ _ Hx). lia.
Qed.

Definition puzzle_solved_input : list (list Z) :=
  map (map (default 0)) puzzle_solution.

Lemma solved_input_returned_witness :
  solved (map (map Some) puzzle_solved_input) /\ (82 <= 82)%nat /\
  solve ascending 82 puzzle_solved_input = Ok (map (map Some) puzzle_solved_input).
Proof.
  assert (H1 : solved (map (map Some) puzzle_solved_input)).
  { apply solved_check_solved. apply (bool_decide_unpack _). vm_compute. exact I. }
  assert (H2 : (82 <= 82)%nat) by lia.
  split; [exact H1|]. split; [exact H2|].
  exact (solved_input_returned ascending 82 puzzle_solved_input H1 H2).
Defined.

(** ** X3: the entries of the input are not checked *)

(** X3. The solver does not check that the entries are in 0..9.  On any
    9x9 array of integers it returns; and a result other than the sentinel
    is full, keeps every entry of the input that is not zero, whatever
    its value, and has no two peers with the same value. *)
Theorem sudoku_solver_any_entries ord fuel input :
  shape9 input -> (82 <= fuel)%nat ->
  exists out, solve ord fuel input = Ok out /\
    (out = sentinel \/
     (shape9 out /\ (None ∉ mjoin out) /\ peers_differ out /\ extends input out)).
Proof.
  intros Hshape Hfuel.
  destruct (first_search ord fuel input Hshape Hfuel) as (st & r & Hrun & Hpost).
  unfold solve. rewrite (sudoku_solver_unfold _ _ _ Hshape), Hrun. simpl.
  destruct r as [ref|].
  - destruct (post_some _ _ _ _ Hpost ref eq_refl) as [-> Hfull].
    exists (sol_array st). split; [done|]. right.
    pose proof (post_inv _ _ _ _ Hpost) as Hinv.
    split; [apply Hinv|]. split; [done|]. split; [apply Hinv|].
    intros var x Hx Hx0.
    assert (Hr : in_range var) by (by eapply grid_lookup_Some_range).
    destruct (grid_lookup_is_Some (sol_array st) var (inv_shape _ _ Hinv) Hr)
      as [[v|] Hv].
    + destruct (inv_assigned _ _ Hinv _ _ Hv) as (s0 & Hs0 & Hin).
      rewrite (setup_order_values_initial _ Hshape), decide_True, Hx in Hs0 by done.
      simpl in Hs0. injection Hs0 as <-. unfold initial_values in Hin.
      rewrite decide_False in Hin by done.
      apply elem_of_singleton in Hin as ->. done.
    + exfalso. apply Hfull. apply elem_of_join_grid. eauto.
  - exists sentinel. split; [done|]. by left.
Qed.

(** A 9x9 array with the entry 10. *)
Definition with_ten : list (list Z) :=
  [10;0;0;0;0;0;0;0;0] :: replicate 8 (replicate 9 0).

Example solve_with_ten :
  match solve ascending 82 with_ten with
  | Ok out => grid_lookup out (0%nat, 0%nat) = Some (Some 10) /\ out <> sentinel
  | _ => False
  end.
Proof. vm_compute. split; [reflexivity|discriminate]. Qed.

Lemma sudoku_solver_any_entries_witness :
  shape9 with_ten /\ (82 <= 82)%nat /\
  exists out, solve ascending 82 with_ten = Ok out /\
    (out = sentinel \/
     (shape9 out /\ (None ∉ mjoin out) /\ peers_differ out /\ extends with_ten out)).
Proof.
  assert (H1 : shape9 with_ten) by (apply (bool_decide_unpack _); vm_compute; exact I).
  assert (H2 : (82 <= 82)%nat) by lia.
  split; [exact H1|]. split; [exact H2|].
  exact (sudoku_solver_any_entries ascending 82 with_ten H1 H2).
Defined.

(** ** Inputs of another shape *)

Lemma empty_variables_raise (sol : list (list (option Z))) variables :
  (exists var, var ∈ variables /\ grid_lookup sol var = None) ->
  empty_variables sol variables = Raise IndexError.
Proof.
  induction variables as [|v vs IH]; intros (var & Hin & Hnone).
  { by apply not_elem_of_nil in Hin. }
  simpl. destruct (grid_lookup sol v) as [x|] eqn:Hx; simpl; [|done].
  apply elem_of_cons in Hin as [->|Hin]; [congruence|].
  by rewrite IH by eauto.
Qed.

Lemma populate_order_values_raise input variables ov :
  (exists var, var ∈ variables /\ grid_lookup input var = None) ->
  populate_order_values input variables ov = Raise IndexError.
Proof.
  revert ov. induction variables as [|v vs IH]; intros ov (var & Hin & Hnone).
  { by apply not_elem_of_nil in Hin. }
  simpl. destruct (grid_lookup input v) as [x|] eqn:Hx; simpl; [|done].
  apply elem_of_cons in Hin as [->|Hin]; [congruence|].
  case_decide; apply IH; eauto.
Qed.

(** X4. A row with fewer entries than the array has rows makes
    [sudoku_solver] raise IndexError, in [populate_order_values], before
    any search. *)
Theorem short_row_raises ord fuel input i j :
  (i < length input)%nat -> (j < length input)%nat ->
  grid_lookup input (i, j) = None ->
  sudoku_solver ord fuel input = Raise IndexError.
Proof.
  intros Hi Hj Hnone. unfold sudoku_solver.
  rewrite (populate_order_values_raise input (all_variables (length input)) ∅);
    [done|].
  exists (i, j). split; [|done]. by apply elem_of_all_variables.
Qed.

(** Nine rows of eight entries. *)
Definition nine_by_eight : list (list Z) := replicate 9 (replicate 8 0).

Lemma short_row_raises_witness :
  (0 < length nine_by_eight)%nat /\ (8 < length nine_by_eight)%nat /\
  grid_lookup nine_by_eight (0%nat, 8%nat) = None /\
  sudoku_solver ascending 82 nine_by_eight = Raise IndexError.
Proof.
  assert (H1 : (0 < length nine_by_eight)%nat) by (vm_compute; lia).
  assert (H2 : (8 < length nine_by_eight)%nat) by (vm_compute; lia).
  assert (H3 : grid_lookup nine_by_eight (0%nat, 8%nat) = None) by reflexivity.
  repeat (split; [assumption|]).
  exact (short_row_raises ascending 82 nine_by_eight 0 8 H1 H2 H3).
Defined.

(** X5. A square array with more than nine rows passes the setup, and
    the first call of [depth_first_search] raises IndexError: the cell
    (0, 9) is a variable, and [get_empty_var] reads it in the 9x9
    [sol_array]. *)
Theorem oversized_input_raises ord fuel input :
  (9 < length input)%nat ->
  Forall (fun row => (length input <= length row)%nat) input ->
  sudoku_solver ord (S fuel) input = Raise IndexError.
Proof.
  intros Hlen Hrows. unfold sudoku_solver.
  destruct (populate_order_values_spec input (all_variables (length input)) ∅)
    as (ov & -> & _).
  { apply Forall_forall. intros var Hvar.
    apply elem_of_all_variables in Hvar as [H1 H2]. unfold grid_lookup.
    destruct (lookup_lt_is_Some_2 input var.1 H1) as [row Hrow].
    rewrite Hrow. simpl. apply lookup_lt_is_Some_2.
    rewrite Forall_lookup in Hrows. specialize (Hrows _ _ Hrow). simpl in Hrows.
    lia. }
  destruct (lookup_lt_is_Some_2 input 0) as [row0 Hrow0]; [lia|].
  destruct (populate_members_spec input row0 (all_variables (length input)) ∅ Hrow0)
    as (ms & -> & _).
  simpl. unfold get_empty_var.
  rewrite (empty_variables_raise (np_full (option Z) None)); [done|].
  exists (0%nat, 9%nat). split; [|done].
  apply elem_of_all_variables. simpl. lia.
Qed.

Definition ten_by_ten : list (list Z) := replicate 10 (replicate 10 0).

Lemma oversized_input_raises_witness :
  (9 < length ten_by_ten)%nat /\
  Forall (fun row => (length ten_by_ten <= length row)%nat) ten_by_ten /\
  sudoku_solver ascending 82 ten_by_ten = Raise IndexError.
Proof.
  assert (H1 : (9 < length ten_by_ten)%nat) by (vm_compute; lia).
  assert (H2 : Forall (fun row => (length ten_by_ten <= length row)%nat) ten_by_ten)
    by (apply (bool_decide_unpack _); vm_compute; exact I).
  split; [exact H1|]. split; [exact H2|].
  exact (oversized_input_raises ascending 81 ten_by_ten H1 H2).
Defined.

(** *** Fewer than nine rows *)

Lemma empty_variables_subseteq (sol : list (list (option Z))) variables evs :
  empty_variables sol variables = Ok evs -> evs ⊆ variables.
Proof.
  revert evs. induction variables as [|v vs IH]; simpl; intros evs H.
  { inv_ok. done. }
  apply bind_Ok in H. destruct H as (x & _ & H).
  apply bind_Ok in H. destruct H as (rest & Hrest & H). inv_ok.
  specialize (IH _ Hrest). case_decide; set_solver.
Qed.

Lemma get_empty_var_variable sol ov variables var :
  get_empty_var sol ov variables = Ok var -> var ∈ variables.
Proof.
  unfold get_empty_var. intros H.
  apply bind_Ok in H. destruct H as (evs & Hevs & H).
  apply bind_Ok in H. destruct H as (sizes & _ & H).
  apply bind_Ok in H. destruct H as (i & _ & H). apply or_raise_Ok in H.
  apply empty_variables_subseteq in Hevs. apply Hevs.
  by eapply list_elem_of_lookup_2.
Qed.

(** The search writes to no cell of [sol_array] other than the variables,
    and returns [sol_array] only when it holds no [None]. *)
Lemma search_values_keeps_cell members rec loop empty_var values st st' r c0 :
  (forall st1 st1' r1, rec st1 = Ok (st1', r1) ->
     grid_lookup (sol_array st1') c0 = grid_lookup (sol_array st1) c0 /\
     (r1 <> None -> None ∉ mjoin (sol_array st1'))) ->
  empty_var <> c0 ->
  search_values members rec loop empty_var values st = Ok (st', r) ->
  grid_lookup (sol_array st') c0 = grid_lookup (sol_array st) c0 /\
  (r <> None -> None ∉ mjoin (sol_array st')).
Proof.
  intros Hrec Hne. revert st. induction values as [|value values IH]; intros st H.
  { simpl in H. by inv_ok. }
  simpl in H. apply bind_Ok in H. destruct H as (valid & _ & H).
  destruct valid; [|by apply IH in H].
  apply bind_Ok in H. destruct H as (a1 & Ha1 & H). apply or_raise_Ok in Ha1.
  apply bind_Ok in H. destruct H as ([ov2 ok] & _ & H).
  apply bind_Ok in H. destruct H as ([st3 solution] & Hcall & H).
  simpl in Ha1.
  assert (H3 : grid_lookup (sol_array st3) c0 = grid_lookup (sol_array st) c0 /\
               (solution <> None -> None ∉ mjoin (sol_array st3))).
  { destruct ok.
    - apply Hrec in Hcall as [Hc Hn]. simpl in Hc.
      by rewrite Hc, (grid_lookup_store_ne _ _ _ _ _ Ha1 Hne).
    - inv_ok. simpl. by rewrite (grid_lookup_store_ne _ _ _ _ _ Ha1 Hne). }
  destruct H3 as [Hc3 Hn3].
  destruct solution as [ref|]; [by inv_ok|].
  apply bind_Ok in H. destruct H as (a5 & Ha5 & H). apply or_raise_Ok in Ha5.
  simpl in Ha5.
  apply IH in H as [Hc Hn]. simpl in Hc.
  by rewrite Hc, (grid_lookup_store_ne _ _ _ _ _ Ha5 Hne).
Qed.

Lemma depth_first_search_keeps_cell ord members variables fuel st st' r c0 :
  c0 ∉ variables ->
  depth_first_search ord members variables fuel st = Ok (st', r) ->
  grid_lookup (sol_array st') c0 = grid_lookup (sol_array st) c0 /\
  (r <> None -> None ∉ mjoin (sol_array st')).
Proof.
  intros Hc0. revert st st' r. induction fuel as [|fuel IH]; intros st st' r H.
  { done. }
  simpl in H. case_decide as Hnone; [|by inv_ok].
  apply bind_Ok in H. destruct H as (var & Hvar & H).
  apply bind_Ok in H. destruct H as (s & _ & H).
  apply get_empty_var_variable in Hvar.
  apply (search_values_keeps_cell _ _ _ _ _ _ _ _ c0 IH) in H; [done|].
  intros ->. done.
Qed.

(** X6. On an array with fewer than nine rows [sudoku_solver] never
    returns a solution: the cells beyond the input are no variables and
    stay [None] in the 9x9 [sol_array], so that a run that returns can only
    return the sentinel. *)
Theorem small_input_never_solved ord fuel input out :
  (length input < 9)%nat ->
  solve ord fuel input = Ok out ->
  out = sentinel.
Proof.
  intros Hlen H. unfold solve in H.
  apply bind_Ok in H. destruct H as ([st r] & Hrun & H). inv_ok.
  unfold sudoku_solver in Hrun.
  apply bind_Ok in Hrun. destruct Hrun as (ov & _ & Hrun).
  apply bind_Ok in Hrun. destruct Hrun as (ms & _ & Hrun).
  apply bind_Ok in Hrun. destruct Hrun as ([st1 solution] & Hdfs & Hrun).
  apply (depth_first_search_keeps_cell _ _ _ _ _ _ _ (8%nat, 8%nat)) in Hdfs
    as [Hcell Hfull].
  - destruct solution as [ref|]; inv_ok; [|done].
    exfalso. apply Hfull; [done|]. apply elem_of_join_grid.
    exists (8%nat, 8%nat). by rewrite Hcell.
  - rewrite elem_of_all_variables. simpl. lia.
Qed.

(** A 3x3 array with two 5s in its first row, and one without clash. *)
Definition three_by_three : list (list Z) := [[5;5;0]; [0;0;0]; [0;0;0]].
Definition three_by_three_free : list (list Z) := [[5;0;0]; [0;0;0]; [0;0;0]].

Example solve_three_by_three_free :
  solve ascending 82 three_by_three_free = Raise ValueError.
Proof. vm_compute. reflexivity. Qed.

Lemma small_input_never_solved_witness :
  (length three_by_three < 9)%nat /\
  solve ascending 82 three_by_three = Ok sentinel /\
  sentinel = sentinel.
Proof.
  assert (H1 : (length three_by_three < 9)%nat) by (vm_compute; lia).
  assert (H2 : solve ascending 82 three_by_three = Ok sentinel)
    by (vm_compute; reflexivity).
  split; [exact H1|]. split; [exact H2|].
  exact (small_input_never_solved ascending 82 three_by_three sentinel H1 H2).
Defined.

(** ** [get_empty_var] on a full grid *)

(** X7. [get_empty_var] never returns [None]: when no cell of a 9x9
    [sol_array] is unassigned it raises ValueError ([np.argmin] of an
    empty array), whatever the candidate sets.  The branch
    [if empty_var is None] of [depth_first_search] cannot be taken. *)
Theorem get_empty_var_full_raises sol ov :
  shape9 sol -> None ∉ mjoin sol ->
  get_empty_var sol ov (all_variables 9) = Raise ValueError.
Proof.
  intros Hshape Hfull. unfold get_empty_var.
  rewrite empty_variables_spec.
  - simpl. rewrite (elem_of_nil_inv (filter _ _)); [done|].
    intros var Hvar. apply list_elem_of_filter in Hvar as [Hnone _].
    apply Hfull. apply elem_of_join_grid. eauto.
  - apply Forall_forall. intros var Hvar.
    apply grid_lookup_is_Some; [done|]. by apply in_range_variables.
Qed.

Lemma get_empty_var_full_raises_witness :
  shape9 puzzle_solution /\ (None ∉ mjoin puzzle_solution) /\
  get_empty_var puzzle_solution ∅ (all_variables 9) = Raise ValueError.
Proof.
  assert (H1 : shape9 puzzle_solution)
    by (apply (bool_decide_unpack _); vm_compute; exact I).
  assert (H2 : None ∉ mjoin puzzle_solution)
    by (apply (bool_decide_unpack _); vm_compute; exact I).
  split; [exact H1|]. split; [exact H2|].
  exact (get_empty_var_full_raises puzzle_solution ∅ H1 H2).
Defined.

(** ** A failed search leaves nothing behind *)

(** X8. When the search fails, every tentative assignment and every
    pruning has been undone: the array returned is the sentinel,
    [sol_array] holds [None] everywhere again and [order_values] is what
    [populate_order_values] built. *)
Theorem failed_search_restores ord fuel input st a :
  shape9 input ->
  sudoku_solver ord fuel input = Ok (st, ret_new a) ->
  a = sentinel /\
  sol_array st = np_full (option Z) None /\
  order_values st = setup_order_values input.
Proof.
  intros Hshape Hrun.
  apply (sudoku_solver_mono _ _ (fuel `max` 82)) in Hrun; [|lia].
  rewrite (sudoku_solver_unfold _ _ _ Hshape) in Hrun.
  destruct (first_search ord (fuel `max` 82) input Hshape) as (st1 & r & Hdfs & Hpost);
    [lia|].
  rewrite Hdfs in Hrun. simpl in Hrun.
  destruct r as [ref|]; [discriminate|]. injection Hrun as <- <-.
  split; [done|]. by destruct (post_none _ _ _ _ Hpost eq_refl).
Qed.

Lemma failed_search_restores_witness :
  shape9 two_fives /\
  sudoku_solver ascending 82 two_fives =
    Ok (run_store (sudoku_solver ascending 82 two_fives), ret_new sentinel) /\
  sentinel = sentinel /\
  sol_array (run_store (sudoku_solver ascending 82 two_fives)) = np_full (option Z) None /\
  order_values (run_store (sudoku_solver ascending 82 two_fives)) =
    setup_order_values two_fives.
Proof.
  assert (H1 : shape9 two_fives) by (apply (bool_decide_unpack _); vm_compute; exact I).
  assert (H2 : sudoku_solver ascending 82 two_fives =
    Ok (run_store (sudoku_solver ascending 82 two_fives), ret_new sentinel))
    by (vm_compute; reflexivity).
  split; [exact H1|]. split; [exact H2|].
  exact (failed_search_restores ascending 82 two_fives _ _ H1 H2).
Defined.

(** ** More on [forward_check] *)

Lemma forward_check_loop_keys value ms ov changes ov' :
  forward_check_loop value ms ov changes = Ok (ov', true) ->
  forall m, m ∈ ms -> is_Some (ov !! m).
Proof.
  revert ov changes. induction ms as [|m0 ms IH]; simpl; intros ov changes H m Hm.
  { by apply not_elem_of_nil in Hm. }
  apply bind_Ok in H. destruct H as (s & Hs & H). apply or_raise_Ok in Hs.
  apply elem_of_cons in Hm as [->|Hm]; [by eauto|].
  case_decide.
  - apply bind_Ok in H. destruct H as (s1 & _ & H).
    case_decide; [by inv_ok|].
    specialize (IH _ _ H m Hm). destruct (decide (m0 = m)) as [<-|Hne]; [by eauto|].
    by rewrite lookup_insert_ne in IH.
  - by eapply IH.
Qed.

Lemma forward_check_loop_nothing value ms ov changes :
  (forall m, m ∈ ms -> exists s, ov !! m = Some s /\ value ∉ s) ->
  forward_check_loop value ms ov changes = Ok (ov, true).
Proof.
  revert changes. induction ms as [|m0 ms IH]; simpl; intros changes Hall; [done|].
  destruct (Hall m0) as (s & Hs & Hv); [apply list_elem_of_here|].
  rewrite Hs. simpl. rewrite decide_False by done.
  apply IH. intros m Hm. apply Hall. by apply list_elem_of_further.
Qed.

(** X9. A forward check that succeeded has nothing left to do: run again
    on its own result, with the same cell and value, it succeeds and
    changes nothing. *)
Theorem forward_check_idempotent var value members ov ov' :
  forward_check var value members ov = Ok (ov', true) ->
  forward_check var value members ov' = Ok (ov', true).
Proof.
  intros H. pose proof H as H'.
  apply forward_check_true in H as (ms & Hms & Hlk & _).
  unfold forward_check in *. rewrite Hms in *. simpl in *.
  apply forward_check_loop_nothing. intros m Hm.
  destruct (forward_check_loop_keys _ _ _ _ _ H' m Hm) as [s Hs].
  exists (s ∖ {[ value ]}). split; [|set_solver].
  by rewrite Hlk, decide_True, Hs.
Qed.

Definition pruned_three_cells : gmap cell (gset Z) :=
  match forward_check (0%nat, 0%nat) 8 (setup_members three_cells)
          (setup_order_values three_cells) with
  | Ok (ov', _) => ov'
  | _ => ∅
  end.

Lemma forward_check_idempotent_witness :
  forward_check (0%nat, 0%nat) 8 (setup_members three_cells)
    (setup_order_values three_cells) = Ok (pruned_three_cells, true) /\
  forward_check (0%nat, 0%nat) 8 (setup_members three_cells)
    pruned_three_cells = Ok (pruned_three_cells, true).
Proof.
  assert (H1 : forward_check (0%nat, 0%nat) 8 (setup_members three_cells)
                 (setup_order_values three_cells) = Ok (pruned_three_cells, true))
    by (vm_compute; reflexivity).
  split; [exact H1|].
  exact (forward_check_idempotent _ _ _ _ _ H1).
Defined.

(** X10. [forward_check] reports a dead end exactly when the only
    candidate of some member of the cell is the value being assigned. *)
Theorem forward_check_fails_iff var value members ov ov' ok :
  forward_check var value members ov = Ok (ov', ok) ->
  ok = false <->
  exists ms m, members !! var = Some ms /\ m ∈ ms /\ ov !! m = Some {[ value ]}.
Proof.
  intros H. split.
  - intros ->. by eapply forward_check_dead_end_member.
  - intros (ms & m & Hms & Hm & Hlk). destruct ok; [|done]. exfalso.
    apply forward_check_true in H as (ms' & Hms' & Hlk' & Hne).
    assert (ms' = ms) as -> by congruence.
    destruct (Hne m {[ value ]} Hm Hlk) as (s' & Hs' & Hnonempty); [set_solver|].
    rewrite Hlk', decide_True, Hlk in Hs' by done. simpl in Hs'.
    injection Hs' as <-. apply Hnonempty. set_solver.
Qed.

Lemma forward_check_fails_iff_witness :
  forward_check (0%nat, 0%nat) 7 (setup_members three_cells)
    (setup_order_values three_cells) = Ok (setup_order_values three_cells, false) /\
  (false = false <->
   exists ms m, setup_members three_cells !! (0%nat, 0%nat) = Some ms /\ m ∈ ms /\
     setup_order_values three_cells !! m = Some {[ 7 ]}).
Proof.
  assert (H1 : forward_check (0%nat, 0%nat) 7 (setup_members three_cells)
                 (setup_order_values three_cells)
               = Ok (setup_order_values three_cells, false))
    by (vm_compute; reflexivity).
  split; [exact H1|].
  exact (forward_check_fails_iff _ _ _ _ _ _ H1).
Defined.

(** ** [is_valid] on the board *)

(** X11. With the members of a 9x9 board and a 9x9 [sol_array], [is_valid]
    does not raise, and it returns [True] exactly when no peer of the cell
    holds the value; what the cell itself holds plays no part. *)
Theorem is_valid_board input sol var value :
  shape9 input -> shape9 sol -> in_range var ->
  exists b, is_valid var value (setup_members input) sol = Ok b /\
    (b = true <->
     forall c, peer var c -> grid_lookup sol c <> Some (Some value)).
Proof.
  intros Hin Hsol Hr. unfold is_valid.
  rewrite (setup_members_lookup _ _ Hin Hr). simpl.
  destruct (is_valid_loop_total value (members_of 9 var) sol) as [b Hb].
  { apply Forall_forall. intros m Hm.
    apply grid_lookup_is_Some; [done|]. by eapply members_of_range. }
  exists b. split; [done|]. destruct b.
  - split; [|done]. intros _ c Hp Hc.
    eapply is_valid_loop_true; [exact Hb| |exact Hc].
    apply members_of_peer; [done|]. split; [|done].
    by eapply grid_lookup_Some_range.
  - split; [done|]. intros Hfree. exfalso.
    apply is_valid_loop_false in Hb as (m & Hm & Hlk).
    apply members_of_peer in Hm as [_ Hp]; [|done]. by apply (Hfree m).
Qed.

Lemma is_valid_board_witness :
  shape9 puzzle /\ shape9 puzzle_solution /\ in_range (0%nat, 0%nat) /\
  exists b, is_valid (0%nat, 0%nat) 5 (setup_members puzzle) puzzle_solution = Ok b /\
    (b = true <->
     forall c, peer (0%nat, 0%nat) c -> grid_lookup puzzle_solution c <> Some (Some 5)).
Proof.
  assert (H1 : shape9 puzzle) by (apply (bool_decide_unpack _); vm_compute; exact I).
  assert (H2 : shape9 puzzle_solution)
    by (apply (bool_decide_unpack _); vm_compute; exact I).
  assert (H3 : in_range (0%nat, 0%nat)) by (split; simpl; lia).
  repeat (split; [assumption|]).
  exact (is_valid_board puzzle puzzle_solution (0%nat, 0%nat) 5 H1 H2 H3).
Defined.

Example is_valid_own_value :
  is_valid (0%nat, 0%nat) 5 (setup_members puzzle) puzzle_solution = Ok true /\
  is_valid (0%nat, 1%nat) 5 (setup_members puzzle) puzzle_solution = Ok false.
Proof. vm_compute. split; reflexivity. Qed.

(** ** The tables of the setup *)

(** X12. On a 9x9 input [populate_order_values] does not raise.  It gives
    a blank cell all of 1..9, whatever its peers hold, and a cell that
    holds [x] the set with [x] alone, whatever [x] is; it replaces what
    the dict held for the 81 cells and keeps its other entries. *)
Theorem populate_order_values_board input ov_before :
  shape9 input ->
  exists ov, populate_order_values input (all_variables 9) ov_before = Ok ov /\
    (forall var, in_range var ->
       exists x, grid_lookup input var = Some x /\
         ov !! var = Some (if decide (x = 0) then list_to_set (seqZ 1 9)
                           else {[ x ]})) /\
    (forall var, ~ in_range var -> ov !! var = ov_before !! var).
Proof.
  intros Hshape.
  destruct (populate_order_values_spec input (all_variables 9) ov_before)
    as (ov & Hov & Hlk).
  { apply Forall_forall. intros var Hvar.
    apply grid_lookup_is_Some; [done|]. by apply in_range_variables. }
  exists ov. split; [done|]. split.
  - intros var Hr. destruct (grid_lookup_is_Some input var Hshape Hr) as [x Hx].
    exists x. split; [done|].
    rewrite Hlk, decide_True, Hx by (by apply in_range_variables). done.
  - intros var Hr. rewrite Hlk, decide_False; [done|].
    by rewrite <- in_range_variables.
Qed.

Lemma populate_order_values_board_witness :
  shape9 puzzle /\
  exists ov, populate_order_values puzzle (all_variables 9) ∅ = Ok ov /\
    (forall var, in_range var ->
       exists x, grid_lookup puzzle var = Some x /\
         ov !! var = Some (if decide (x = 0) then list_to_set (seqZ 1 9)
                           else {[ x ]})) /\
    (forall var, ~ in_range var -> ov !! var = (∅ : gmap cell (gset Z)) !! var).
Proof.
  assert (H1 : shape9 puzzle) by (apply (bool_decide_unpack _); vm_compute; exact I).
  split; [exact H1|].
  exact (populate_order_values_board puzzle ∅ H1).
Defined.

(** X13. The lists of [populate_members] are symmetric and stay on the
    board: a cell is listed for another exactly when the other is listed
    for it, and every cell listed is a cell of the 9x9 board. *)
Theorem members_symmetric input c1 c2 :
  shape9 input -> in_range c1 -> in_range c2 ->
  exists l1 l2,
    setup_members input !! c1 = Some l1 /\
    setup_members input !! c2 = Some l2 /\
    (c2 ∈ l1 <-> c1 ∈ l2) /\
    Forall in_range l1.
Proof.
  intros Hshape H1 H2. exists (members_of 9 c1), (members_of 9 c2).
  split; [by apply setup_members_lookup|].
  split; [by apply setup_members_lookup|]. split.
  - rewrite !members_of_peer by done. split; intros [_ Hp]; split; try done;
      by apply peer_sym.
  - apply Forall_forall. intros x Hx. by apply (members_of_range c1).
Qed.

Lemma members_symmetric_witness :
  shape9 puzzle /\ in_range (0%nat, 0%nat) /\ in_range (2%nat, 1%nat) /\
  exists l1 l2,
    setup_members puzzle !! (0%nat, 0%nat) = Some l1 /\
    setup_members puzzle !! (2%nat, 1%nat) = Some l2 /\
    ((2%nat, 1%nat) ∈ l1 <-> (0%nat, 0%nat) ∈ l2) /\
    Forall in_range l1.
Proof.
  assert (H1 : shape9 puzzle) by (apply (bool_decide_unpack _); vm_compute; exact I).
  assert (H2 : in_range (0%nat, 0%nat)) by (split; simpl; lia).
  assert (H3 : in_range (2%nat, 1%nat)) by (split; simpl; lia).
  repeat (split; [assumption|]).
  exact (members_symmetric puzzle (0%nat, 0%nat) (2%nat, 1%nat) H1 H2 H3).
Defined.
